(** * ringbuf.c: a fixed-capacity circular byte buffer

    A shallow embedding of [ringbuf.c] and the properties its
    specification states about it.

    Modelling conventions.
    - [size_t] values are integers in [Z]; the wrap-around of unsigned
      arithmetic is written out with [size_t].
    - The storage [rb->buf] is the list of its bytes (each byte a [Z] in
      [0, 256)); the pointers [rb->head] and [rb->tail] are offsets
      from [rb->buf], so [ringbuf_end] is the offset [size].
    - A function that mutates a buffer takes the buffer and returns the
      new one next to its C return value.
    - [assert] is checked: a failed assertion is the outcome
      [AssertFail]. A [memcpy], [memset] or [memchr] outside the bounds of
      an object, and [%] by zero, are [Undef]. Loops and the recursion of
      [ringbuf_findchr] run on fuel that the entry points compute
      themselves; [NoFuel] marks its exhaustion. *)

From Stdlib Require Import ZArith Lia.
From Stdlib.Strings Require Import Byte.
From stdpp Require Import base tactics option list numbers strings.

Local Open Scope Z_scope.

(** ** Outcomes *)

Inductive outcome (A : Type) : Type :=
  | Ok (a : A)
  | AssertFail
  | Undef
  | NoFuel.
Arguments Ok {A} a.
Arguments AssertFail {A}.
Arguments Undef {A}.
Arguments NoFuel {A}.

Global Instance outcome_ret : MRet outcome := fun A a => Ok a.
Global Instance outcome_bind : MBind outcome := fun A B f m =>
  match m with
  | Ok a => f a
  | AssertFail => AssertFail
  | Undef => Undef
  | NoFuel => NoFuel
  end.

Definition assert (b : bool) : outcome unit :=
  if b then Ok tt else AssertFail.

(** ** Machine integers and bytes *)

Definition SIZE_MAX : Z := 2 ^ 64 - 1.

(** Conversion to [size_t]: reduction modulo [2^64]. *)
Definition size_t (x : Z) : Z := x mod 2 ^ 64.

(** Conversion of an [int] to [unsigned char], as [memset] and [memchr]
    do with their argument. *)
Definition uchar (c : Z) : Z := c mod 256.

(** The macro [MIN]. Where the source casts its first argument to
    [unsigned long], the assertion just before makes that argument
    positive, and the cast changes nothing. *)
Definition MIN (a b : Z) : Z := if a <? b then a else b.

Definition bytes_of_string (s : string) : list Z :=
  (fun b => Z.of_N (Byte.to_N b)) <$> String.list_byte_of_string s.

(** ** Memory primitives of [<string.h>] over byte lists *)

Definition in_bounds (l : list Z) (off n : Z) : bool :=
  (0 <=? off) && (0 <=? n) && (off + n <=? Z.of_nat (length l)).

Definition bytes_at (l : list Z) (off n : Z) : list Z :=
  take (Z.to_nat n) (drop (Z.to_nat off) l).

(** [memcpy (dst + d, src + s, n)]. *)
Definition memcpy (dst : list Z) (d : Z) (src : list Z) (s n : Z)
  : outcome (list Z) :=
  if in_bounds dst d n && in_bounds src s n
  then Ok (list_inserts (Z.to_nat d) (bytes_at src s n) dst)
  else Undef.

(** [memset (dst + d, c, n)]. *)
Definition memset (dst : list Z) (d c n : Z) : outcome (list Z) :=
  if in_bounds dst d n
  then Ok (list_inserts (Z.to_nat d) (replicate (Z.to_nat n) (uchar c)) dst)
  else Undef.

(** [memchr (s + start, c, n)]: the index, from [start], of the first
    byte equal to [(unsigned char) c], or [None] for the null pointer. *)
Definition memchr (s : list Z) (start c n : Z) : outcome (option Z) :=
  if in_bounds s start n
  then Ok ((fun r => Z.of_nat r.1) <$>
             list_find (fun b => b = uchar c) (bytes_at s start n))
  else Undef.

(** ** The buffer *)

Record ringbuf_t : Type := mk_ringbuf {
  buf : list Z;
  head : Z;
  tail : Z;
  size : Z
}.

Definition set_buf (rb : ringbuf_t) (b : list Z) : ringbuf_t :=
  {| buf := b; head := head rb; tail := tail rb; size := size rb |}.
Definition set_head (rb : ringbuf_t) (h : Z) : ringbuf_t :=
  {| buf := buf rb; head := h; tail := tail rb; size := size rb |}.
Definition set_tail (rb : ringbuf_t) (t : Z) : ringbuf_t :=
  {| buf := buf rb; head := head rb; tail := t; size := size rb |}.

Definition ringbuf_buffer_size (rb : ringbuf_t) : Z := size rb.

Definition ringbuf_reset (rb : ringbuf_t) : ringbuf_t :=
  set_head (set_tail rb 0) 0.

Definition ringbuf_capacity (rb : ringbuf_t) : Z :=
  size_t (ringbuf_buffer_size rb - 1).

Definition ringbuf_end (rb : ringbuf_t) : Z := ringbuf_buffer_size rb.

Definition ringbuf_bytes_free (rb : ringbuf_t) : Z :=
  if head rb >=? tail rb
  then size_t (ringbuf_capacity rb - (head rb - tail rb))
  else size_t (tail rb - head rb - 1).

Definition ringbuf_bytes_used (rb : ringbuf_t) : Z :=
  size_t (ringbuf_capacity rb - ringbuf_bytes_free rb).

Definition ringbuf_is_full (rb : ringbuf_t) : bool :=
  ringbuf_bytes_free rb =? 0.

Definition ringbuf_is_empty (rb : ringbuf_t) : bool :=
  ringbuf_bytes_free rb =? ringbuf_capacity rb.

Definition ringbuf_tail (rb : ringbuf_t) : Z := tail rb.
Definition ringbuf_head (rb : ringbuf_t) : Z := head rb.

Definition ringbuf_nextp (rb : ringbuf_t) (p : Z) : outcome Z :=
  assert ((p >=? 0) && (p <? ringbuf_end rb));;
  Ok ((p + 1) mod ringbuf_buffer_size rb).

(** ** Construction over an allocator hook *)

Definition sizeof_ringbuf_t : Z := 32.

Section Allocator.
(** The pair [__malloc_fun], [__free_fun]. An allocation yields the
    address of a block and the bytes it happens to hold, or fails. *)
Context {heap : Type}.
Variable malloc_fun : Z -> heap -> option (positive * list Z) * heap.
Variable free_fun : positive -> heap -> heap.

(** A buffer handle: the address of the metadata block and the
    metadata itself. [None] is the null handle. The cursors of a new
    block are indeterminate until [ringbuf_reset] sets them; [0] stands
    in for them until then. *)
Definition handle : Type := option (positive * ringbuf_t).

Definition ringbuf_new (capacity : Z) (h : heap) : handle * heap :=
  match malloc_fun sizeof_ringbuf_t h with
  | (Some (rb, _), h) =>
      let sz := size_t (capacity + 1) in
      match malloc_fun sz h with
      | (Some (_, bytes), h) =>
          (Some (rb, ringbuf_reset (mk_ringbuf bytes 0 0 sz)), h)
      | (None, h) => (None, free_fun rb h)
      end
  | (None, h) => (None, h)
  end.

(** [buf = None] is a null [buf] argument. *)
Definition ringbuf_new_static (capacity : Z) (buf : option (list Z))
    (buf_size : Z) (h : heap) : outcome (handle * heap) :=
  assert (size_t (capacity + 1) =? buf_size);;
  match malloc_fun sizeof_ringbuf_t h with
  | (Some (rb, _), h) =>
      let sz := size_t (capacity + 1) in
      match buf with
      | Some bytes => Ok (Some (rb, ringbuf_reset (mk_ringbuf bytes 0 0 sz)), h)
      | None => Ok (None, free_fun rb h)
      end
  | (None, h) => Ok (None, h)
  end.
End Allocator.

(** ** Search *)

Fixpoint ringbuf_findchr_rec (fuel : nat) (rb : ringbuf_t) (c offset : Z)
  : outcome (Z * ringbuf_t) :=
  let bufend := ringbuf_end rb in
  let bytes_used := ringbuf_bytes_used rb in
  if offset >=? bytes_used then Ok (bytes_used, rb) else
  match fuel with
  | O => NoFuel
  | S fuel =>
      if ringbuf_buffer_size rb =? 0 then Undef else
      let start := size_t (tail rb + offset) mod ringbuf_buffer_size rb in
      assert (bufend >? start);;
      let n := MIN (bufend - start) (size_t (bytes_used - offset)) in
      found ← memchr (buf rb) start c n;
      match found with
      | Some k => Ok (size_t (offset + k), rb)
      | None => ringbuf_findchr_rec fuel rb c (size_t (offset + n))
      end
  end.

Definition ringbuf_findchr (rb : ringbuf_t) (c offset : Z)
  : outcome (Z * ringbuf_t) :=
  ringbuf_findchr_rec (Z.to_nat (ringbuf_bytes_used rb)) rb c offset.

(** ** Fill *)

(** The tail of the three writers: on overflow the read cursor is put
    one slot after the write cursor. *)
Definition evict (overflow : bool) (dst : ringbuf_t) : outcome ringbuf_t :=
  if overflow then
    t ← ringbuf_nextp dst (head dst);
    let dst := set_tail dst t in
    assert (ringbuf_is_full dst);;
    Ok dst
  else Ok dst.

Fixpoint memset_loop (fuel : nat) (dst : ringbuf_t) (c count nwritten : Z)
  : outcome (ringbuf_t * Z) :=
  if nwritten =? count then Ok (dst, nwritten) else
  match fuel with
  | O => NoFuel
  | S fuel =>
      let bufend := ringbuf_end dst in
      assert (bufend >? head dst);;
      let n := MIN (bufend - head dst) (size_t (count - nwritten)) in
      b ← memset (buf dst) (head dst) c n;
      let dst := set_head (set_buf dst b) (head dst + n) in
      let nwritten := size_t (nwritten + n) in
      let dst := if head dst =? bufend then set_head dst 0 else dst in
      memset_loop fuel dst c count nwritten
  end.

Definition ringbuf_memset (dst : ringbuf_t) (c len : Z)
  : outcome (Z * ringbuf_t) :=
  let count := MIN len (ringbuf_buffer_size dst) in
  let overflow := count >? ringbuf_bytes_free dst in
  '(dst, nwritten) ← memset_loop (Z.to_nat count) dst c count 0;
  dst ← evict overflow dst;
  Ok (nwritten, dst).

(** ** Bulk copies *)

Fixpoint memcpy_into_loop (fuel : nat) (dst : ringbuf_t) (u8src : list Z)
    (count nread : Z) : outcome ringbuf_t :=
  if nread =? count then Ok dst else
  match fuel with
  | O => NoFuel
  | S fuel =>
      let bufend := ringbuf_end dst in
      assert (bufend >? head dst);;
      let n := MIN (bufend - head dst) (size_t (count - nread)) in
      b ← memcpy (buf dst) (head dst) u8src nread n;
      let dst := set_head (set_buf dst b) (head dst + n) in
      let nread := size_t (nread + n) in
      let dst := if head dst =? bufend then set_head dst 0 else dst in
      memcpy_into_loop fuel dst u8src count nread
  end.

(** Returns the new [head] and the buffer. *)
Definition ringbuf_memcpy_into (dst : ringbuf_t) (src : list Z) (count : Z)
  : outcome (Z * ringbuf_t) :=
  let overflow := count >? ringbuf_bytes_free dst in
  dst ← memcpy_into_loop (Z.to_nat count) dst src count 0;
  dst ← evict overflow dst;
  Ok (head dst, dst).

Fixpoint memcpy_from_loop (fuel : nat) (u8dst : list Z) (src : ringbuf_t)
    (count nwritten : Z) : outcome (list Z * ringbuf_t) :=
  if nwritten =? count then Ok (u8dst, src) else
  match fuel with
  | O => NoFuel
  | S fuel =>
      let bufend := ringbuf_end src in
      assert (bufend >? tail src);;
      let n := MIN (bufend - tail src) (size_t (count - nwritten)) in
      d ← memcpy u8dst nwritten (buf src) (tail src) n;
      let src := set_tail src (tail src + n) in
      let nwritten := size_t (nwritten + n) in
      let src := if tail src =? bufend then set_tail src 0 else src in
      memcpy_from_loop fuel d src count nwritten
  end.

(** Returns the new [tail] ([None] for the null pointer), the
    destination bytes and the buffer. *)
Definition ringbuf_memcpy_from (dst : list Z) (src : ringbuf_t) (count : Z)
  : outcome (option Z * list Z * ringbuf_t) :=
  let bytes_used := ringbuf_bytes_used src in
  if count >? bytes_used then Ok (None, dst, src) else
  '(dst, src) ← memcpy_from_loop (Z.to_nat count) dst src count 0;
  assert (size_t (count + ringbuf_bytes_used src) =? bytes_used);;
  Ok (Some (tail src), dst, src).

Fixpoint copy_loop (fuel : nat) (dst src : ringbuf_t) (count ncopied : Z)
  : outcome (ringbuf_t * ringbuf_t) :=
  if ncopied =? count then Ok (dst, src) else
  match fuel with
  | O => NoFuel
  | S fuel =>
      let src_bufend := ringbuf_end src in
      let dst_bufend := ringbuf_end dst in
      assert (src_bufend >? tail src);;
      let nsrc := MIN (src_bufend - tail src) (size_t (count - ncopied)) in
      assert (dst_bufend >? head dst);;
      let n := MIN (dst_bufend - head dst) nsrc in
      b ← memcpy (buf dst) (head dst) (buf src) (tail src) n;
      let src := set_tail src (tail src + n) in
      let dst := set_head (set_buf dst b) (head dst + n) in
      let ncopied := size_t (ncopied + n) in
      let src := if tail src =? src_bufend then set_tail src 0 else src in
      let dst := if head dst =? dst_bufend then set_head dst 0 else dst in
      copy_loop fuel dst src count ncopied
  end.

(** [dst] and [src] are two distinct buffers. Returns the new [head] of
    [dst] ([None] for the null pointer) and both buffers. *)
Definition ringbuf_copy (dst src : ringbuf_t) (count : Z)
  : outcome (option Z * ringbuf_t * ringbuf_t) :=
  let src_bytes_used := ringbuf_bytes_used src in
  if count >? src_bytes_used then Ok (None, dst, src) else
  let overflow := count >? ringbuf_bytes_free dst in
  '(dst, src) ← copy_loop (Z.to_nat count) dst src count 0;
  assert (size_t (count + ringbuf_bytes_used src) =? src_bytes_used);;
  dst ← evict overflow dst;
  Ok (Some (head dst), dst, src).

(** [ringbuf_copy (rb, rb, count)]: the same code run with [dst] and
    [src] one and the same buffer. A [memcpy] within one object is
    undefined when its two regions overlap. *)
Definition memcpy_within (b : list Z) (d s n : Z) : outcome (list Z) :=
  if (0 <? n) && (Z.abs (d - s) <? n) then Undef else memcpy b d b s n.

Fixpoint copy_self_loop (fuel : nat) (rb : ringbuf_t) (count ncopied : Z)
  : outcome ringbuf_t :=
  if ncopied =? count then Ok rb else
  match fuel with
  | O => NoFuel
  | S fuel =>
      let src_bufend := ringbuf_end rb in
      let dst_bufend := ringbuf_end rb in
      assert (src_bufend >? tail rb);;
      let nsrc := MIN (src_bufend - tail rb) (size_t (count - ncopied)) in
      assert (dst_bufend >? head rb);;
      let n := MIN (dst_bufend - head rb) nsrc in
      b ← memcpy_within (buf rb) (head rb) (tail rb) n;
      let rb := set_tail (set_buf rb b) (tail rb + n) in
      let rb := set_head rb (head rb + n) in
      let ncopied := size_t (ncopied + n) in
      let rb := if tail rb =? src_bufend then set_tail rb 0 else rb in
      let rb := if head rb =? dst_bufend then set_head rb 0 else rb in
      copy_self_loop fuel rb count ncopied
  end.

Definition ringbuf_copy_self (rb : ringbuf_t) (count : Z)
  : outcome (option Z * ringbuf_t) :=
  let src_bytes_used := ringbuf_bytes_used rb in
  if count >? src_bytes_used then Ok (None, rb) else
  let overflow := count >? ringbuf_bytes_free rb in
  rb ← copy_self_loop (Z.to_nat count) rb count 0;
  assert (size_t (count + ringbuf_bytes_used rb) =? src_bytes_used);;
  rb ← evict overflow rb;
  Ok (Some (head rb), rb).

(** ** The logical view of a buffer

    The notions the specification states its properties with; they are
    not functions of [ringbuf.c]. *)

(** The flattened copy of the unread bytes, in reading order: the run
    from [tail] to the end of the storage, then the wrapped run from its
    start. *)
Definition contents (rb : ringbuf_t) : list Z :=
  let used := ringbuf_bytes_used rb in
  let n := MIN (ringbuf_end rb - tail rb) used in
  bytes_at (buf rb) (tail rb) n ++ bytes_at (buf rb) 0 (used - n).

(** Search in a flat byte sequence from [offset]: the index of the first
    occurrence of [(unsigned char) c] at or after [offset], or the
    length when there is none. *)
Definition flat_findchr (l : list Z) (c offset : Z) : Z :=
  if offset >=? Z.of_nat (length l) then Z.of_nat (length l) else
  match list_find (fun b => b = uchar c) (drop (Z.to_nat offset) l) with
  | Some (i, _) => offset + Z.of_nat i
  | None => Z.of_nat (length l)
  end.

(** Well-formed buffers: [size] is the capacity plus the sentinel slot,
    the storage has [size] bytes and both cursors point into it. *)
Record valid (rb : ringbuf_t) : Prop := {
  valid_size : 1 <= size rb <= SIZE_MAX;
  valid_buf : Z.of_nat (length (buf rb)) = size rb;
  valid_head : 0 <= head rb < size rb;
  valid_tail : 0 <= tail rb < size rb
}.

(** The buffer that both constructors hand out for a capacity and a
    storage region. *)
Definition fresh (capacity : Z) (storage : list Z) : ringbuf_t :=
  ringbuf_reset (mk_ringbuf storage 0 0 (size_t (capacity + 1))).

(** Buffers that a program can hold: freshly constructed ones, for a
    capacity whose [capacity + 1] does not wrap around and a storage of
    that many bytes, and the results of the operations on them. Arguments
    of type [size_t] range over [0, SIZE_MAX]. *)
Inductive reachable : ringbuf_t -> Prop :=
  | reach_fresh capacity storage :
      0 <= capacity < SIZE_MAX ->
      Z.of_nat (length storage) = capacity + 1 ->
      reachable (fresh capacity storage)
  | reach_reset rb :
      reachable rb -> reachable (ringbuf_reset rb)
  | reach_findchr rb c offset r rb' :
      reachable rb -> 0 <= offset <= SIZE_MAX ->
      ringbuf_findchr rb c offset = Ok (r, rb') ->
      reachable rb'
  | reach_memset rb c len r rb' :
      reachable rb -> 0 <= len <= SIZE_MAX ->
      ringbuf_memset rb c len = Ok (r, rb') ->
      reachable rb'
  | reach_memcpy_into rb src count r rb' :
      reachable rb -> 0 <= count <= SIZE_MAX ->
      ringbuf_memcpy_into rb src count = Ok (r, rb') ->
      reachable rb'
  | reach_memcpy_from rb dst count r dst' rb' :
      reachable rb -> 0 <= count <= SIZE_MAX ->
      ringbuf_memcpy_from dst rb count = Ok (r, dst', rb') ->
      reachable rb'
  | reach_copy_dst dst src count r dst' src' :
      reachable dst -> reachable src -> 0 <= count <= SIZE_MAX ->
      ringbuf_copy dst src count = Ok (r, dst', src') ->
      reachable dst'
  | reach_copy_src dst src count r dst' src' :
      reachable dst -> reachable src -> 0 <= count <= SIZE_MAX ->
      ringbuf_copy dst src count = Ok (r, dst', src') ->
      reachable src'
  | reach_copy_self rb count r rb' :
      reachable rb -> 0 <= count <= SIZE_MAX ->
      ringbuf_copy_self rb count = Ok (r, rb') ->
      reachable rb'.

(** ** Positions and closed forms, for the statements *)

(** The position [k] slots after [p] in a storage of [sz] slots. *)
Definition wrap (sz p k : Z) : Z :=
  if decide (p + k < sz) then p + k else p + k - sz.

(** The logical offset, from the position [p], of the slot [i]. *)
Definition offset_from (sz p i : Z) : Z :=
  if decide (p <= i) then i - p else i - p + sz.

(** The buffer after [count <= size] bytes of [src] went in: two
    segments written, [head] advanced, and [tail] put one slot after
    [head] when the bytes did not fit. *)
Definition written (dst : ringbuf_t) (src : list Z) (count : Z) : ringbuf_t :=
  let n := Z.min (size dst - head dst) count in
  let h := wrap (size dst) (head dst) count in
  {| buf := list_inserts 0 (bytes_at src n (count - n))
              (list_inserts (Z.to_nat (head dst)) (bytes_at src 0 n)
                 (buf dst));
     head := h;
     tail := if decide (ringbuf_bytes_free dst < count)
             then wrap (size dst) h 1 else tail dst;
     size := size dst |}.

(** The destination after [count] bytes were read from [src] into it. *)
Definition read_into (dst : list Z) (src : ringbuf_t) (count : Z) : list Z :=
  let n := Z.min (size src - tail src) count in
  list_inserts (Z.to_nat n) (bytes_at (buf src) 0 (count - n))
    (list_inserts 0 (bytes_at (buf src) (tail src) n) dst).

(** The largest difference of two pointers, hence the largest size of an
    object whose pointers the code may subtract. *)
Definition PTRDIFF_MAX : Z := 2 ^ 63 - 1.

(** [r] is where a search for the byte [b] from [off] in [l] ends: at the
    first occurrence at or after [off], or at the length of [l]. *)
Definition first_at (l : list Z) (b off r : Z) : Prop :=
  0 <= r <= Z.of_nat (length l) /\
  (r < Z.of_nat (length l) -> off <= r /\ l !! Z.to_nat r = Some b) /\
  (forall j : nat, off <= Z.of_nat j < r -> l !! j <> Some b).

(** ** Byte-wise view of a write, for the statements *)

(** The slot after [p], as the loops wrap a cursor. *)
Definition next_slot (sz p : Z) : Z :=
  if decide (p + 1 = sz) then 0 else p + 1.

(** Storing bytes one at a time from slot [h], wrapping: the storage and
    the cursor afterwards. Any number of bytes may go in; later bytes
    overwrite earlier ones once the storage has been gone around. *)
Fixpoint put_bytes (sz : Z) (b : list Z) (h : Z) (data : list Z)
  : list Z * Z :=
  match data with
  | [] => (b, h)
  | x :: data => put_bytes sz (<[Z.to_nat h := x]> b) (next_slot sz h) data
  end.

(** How many slots the slot [i] lies before the slot just before [h]. *)
Definition back_from (sz h i : Z) : Z :=
  if decide (i < h) then h - 1 - i else h - 1 - i + sz.

(** ** Sequences of calls and the queue they implement *)

(** A call on a buffer: [ringbuf_memcpy_into] of all the bytes of
    [data], [ringbuf_memset], [ringbuf_memcpy_from] of [count] bytes into
    an area of [count] bytes, [ringbuf_findchr], [ringbuf_reset]. *)
Inductive op : Type :=
  | Write (data : list Z)
  | Fill (c len : Z)
  | Read (count : Z)
  | Find (c offset : Z)
  | Reset.

(** What the caller sees of a call: nothing of a write or a reset, the
    number of bytes filled, the bytes read or the failure of the read, the
    offset found. *)
Inductive obs : Type :=
  | Wrote
  | Filled (n : Z)
  | Got (bytes : option (list Z))
  | Found (r : Z)
  | WasReset.

Definition run_op (o : op) (rb : ringbuf_t) : outcome (obs * ringbuf_t) :=
  match o with
  | Write data =>
      '(_, rb) ← ringbuf_memcpy_into rb data (Z.of_nat (length data));
      Ok (Wrote, rb)
  | Fill c len =>
      '(n, rb) ← ringbuf_memset rb c len;
      Ok (Filled n, rb)
  | Read count =>
      '(p, bytes, rb) ← ringbuf_memcpy_from (replicate (Z.to_nat count) 0)
                          rb count;
      Ok (Got (match p with Some _ => Some bytes | None => None end), rb)
  | Find c offset =>
      '(r, rb) ← ringbuf_findchr rb c offset;
      Ok (Found r, rb)
  | Reset => Ok (WasReset, ringbuf_reset rb)
  end.

Fixpoint run_ops (os : list op) (rb : ringbuf_t)
  : outcome (list obs * ringbuf_t) :=
  match os with
  | [] => Ok ([], rb)
  | o :: os =>
      '(x, rb) ← run_op o rb;
      '(xs, rb) ← run_ops os rb;
      Ok (x :: xs, rb)
  end.

(** The same calls on a queue of at most [cap] bytes that drops its
    oldest bytes when more come in than fit and refuses to give more
    bytes than it holds. *)
Definition keep_last (cap : Z) (q : list Z) : list Z :=
  drop (Z.to_nat (Z.of_nat (length q) - cap)) q.

Definition queue_op (cap : Z) (o : op) (q : list Z) : obs * list Z :=
  match o with
  | Write data => (Wrote, keep_last cap (q ++ data))
  | Fill c len =>
      let n := Z.min len (cap + 1) in
      (Filled n, keep_last cap (q ++ replicate (Z.to_nat n) (uchar c)))
  | Read count =>
      if decide (count <= Z.of_nat (length q))
      then (Got (Some (take (Z.to_nat count) q)), drop (Z.to_nat count) q)
      else (Got None, q)
  | Find c offset => (Found (flat_findchr q c offset), q)
  | Reset => (WasReset, [])
  end.

Fixpoint queue_ops (cap : Z) (os : list op) (q : list Z)
  : list obs * list Z :=
  match os with
  | [] => ([], q)
  | o :: os =>
      let r := queue_op cap o q in
      let rs := queue_ops cap os r.2 in
      (r.1 :: rs.1, rs.2)
  end.

(** The arguments of a call are in the range of [size_t]. *)
Definition op_ok (o : op) : Prop :=
  match o with
  | Write data => Z.of_nat (length data) <= SIZE_MAX
  | Fill _ len => 0 <= len <= SIZE_MAX
  | Read count => 0 <= count <= SIZE_MAX
  | Find _ offset => 0 <= offset <= SIZE_MAX
  | Reset => True
  end.

(** ** Concrete buffers *)

(** An allocator for the examples: it never fails and hands out zeroed
    blocks of the size asked for, numbering them. *)
Definition zero_malloc (n : Z) (h : nat)
  : option (positive * list Z) * nat :=
  (Some (Pos.of_succ_nat h, replicate (Z.to_nat n) 0), S h).

Definition zero_free (p : positive) (h : nat) : nat := h.

(** A sequence of calls that overflows, reads, searches, fills, fails a
    read, drains, resets and writes again. *)
Definition demo_calls : list op :=
  [Write [65; 66; 67; 68; 69; 70]; Read 2; Find 70 0;
   Fill 33 2; Read 9; Read 4; Reset; Write [1]].

(** An empty buffer of capacity 4 with both cursors on slot 3. *)
Definition rb_empty3 : ringbuf_t := mk_ringbuf [0; 0; 0; 0; 0] 3 3 5.

(** Capacity 4, holding "AB". *)
Definition rb_AB : ringbuf_t := mk_ringbuf [65; 66; 0; 0; 0] 2 0 5.

(** Capacity 4, full, holding 1, 2, 3, 4 across the end of the storage. *)
Definition rb_wrapped : ringbuf_t := mk_ringbuf [3; 4; 65; 1; 2] 2 3 5.

(** Capacity 4, holding "XYZW" across the end of the storage. *)
Definition rb_XYZW : ringbuf_t := mk_ringbuf [90; 87; 0; 88; 89] 2 3 5.

(** An empty buffer of capacity 2 with both cursors on slot 1. *)
Definition rb_empty1 : ringbuf_t := mk_ringbuf [7; 7; 7] 1 1 3.

(** * Basic facts *)

Lemma size_t_small x : 0 <= x <= SIZE_MAX -> size_t x = x.
Proof. unfold size_t, SIZE_MAX. intros. apply Z.mod_small. lia. Qed.

Lemma size_t_range x : 0 <= size_t x <= SIZE_MAX.
Proof.
  unfold size_t, SIZE_MAX.
  pose proof (Z.mod_pos_bound x (2 ^ 64) ltac:(lia)). lia.
Qed.

Lemma MIN_spec a b : MIN a b = Z.min a b.
Proof. unfold MIN. destruct (Z.ltb_spec a b); lia. Qed.

Lemma bind_Ok {A B} (m : outcome A) (f : A -> outcome B) b :
  m ≫= f = Ok b -> exists a, m = Ok a /\ f a = Ok b.
Proof. destruct m; simpl; intros; try discriminate; eauto. Qed.

Lemma assert_Ok b u : assert b = Ok u -> b = true.
Proof. destruct b; simpl; intros; [reflexivity | discriminate]. Qed.

Lemma assert_true b : b = true -> assert b = Ok tt.
Proof. intros ->. reflexivity. Qed.

(** Breaks a hypothesis [m ≫= f = Ok b] into its steps. *)
Ltac ok_inv H :=
  lazymatch type of H with
  | assert _ ≫= _ = Ok _ =>
      let u := fresh "u" in let Ha := fresh "Hassert" in
      apply bind_Ok in H; destruct H as (u & Ha & H);
      apply assert_Ok in Ha
  | _ ≫= _ = Ok _ =>
      let a := fresh "a" in let Ha := fresh "Hstep" in
      apply bind_Ok in H; destruct H as (a & Ha & H)
  | Ok _ = Ok _ => injection H as H
  end.

Lemma in_bounds_spec l off n :
  in_bounds l off n = true <->
  0 <= off /\ 0 <= n /\ off + n <= Z.of_nat (length l).
Proof. unfold in_bounds. rewrite !andb_true_iff, !Z.leb_le. tauto. Qed.

Lemma memcpy_Ok dst d src s n b :
  memcpy dst d src s n = Ok b ->
  b = list_inserts (Z.to_nat d) (bytes_at src s n) dst /\
  in_bounds dst d n = true /\ in_bounds src s n = true.
Proof.
  unfold memcpy. destruct (in_bounds dst d n), (in_bounds src s n);
    simpl; intros; try discriminate.
  injection H as <-. auto.
Qed.

Lemma memset_Ok dst d c n b :
  memset dst d c n = Ok b ->
  b = list_inserts (Z.to_nat d) (replicate (Z.to_nat n) (uchar c)) dst /\
  in_bounds dst d n = true.
Proof.
  unfold memset. destruct (in_bounds dst d n); intros; try discriminate.
  injection H as <-. auto.
Qed.

(** ** Occupancy of a well-formed buffer, without wrap-around *)

Lemma capacity_valid rb : valid rb -> ringbuf_capacity rb = size rb - 1.
Proof.
  intros []. unfold ringbuf_capacity, ringbuf_buffer_size.
  apply size_t_small. lia.
Qed.

Lemma bytes_free_valid rb :
  valid rb ->
  ringbuf_bytes_free rb =
    if decide (tail rb <= head rb) then size rb - 1 - (head rb - tail rb)
    else tail rb - head rb - 1.
Proof.
  intros Hv. unfold ringbuf_bytes_free. rewrite capacity_valid by done.
  destruct Hv.
  destruct (Z.geb_spec (head rb) (tail rb)); case_decide; try lia;
    apply size_t_small; lia.
Qed.

Lemma bytes_used_valid rb :
  valid rb ->
  ringbuf_bytes_used rb =
    if decide (tail rb <= head rb) then head rb - tail rb
    else size rb - (tail rb - head rb).
Proof.
  intros Hv. unfold ringbuf_bytes_used.
  rewrite capacity_valid, bytes_free_valid by done. destruct Hv.
  case_decide; rewrite size_t_small; lia.
Qed.

Lemma bytes_used_range rb : valid rb -> 0 <= ringbuf_bytes_used rb <= size rb - 1.
Proof. intros Hv. rewrite bytes_used_valid by done. destruct Hv. case_decide; lia. Qed.

Lemma bytes_free_range rb : valid rb -> 0 <= ringbuf_bytes_free rb <= size rb - 1.
Proof. intros Hv. rewrite bytes_free_valid by done. destruct Hv. case_decide; lia. Qed.

Lemma nextp_valid rb p :
  1 <= size rb -> 0 <= p < size rb ->
  ringbuf_nextp rb p = Ok (if decide (p + 1 = size rb) then 0 else p + 1).
Proof.
  intros Hs Hp. unfold ringbuf_nextp, ringbuf_end, ringbuf_buffer_size.
  rewrite assert_true
    by (apply andb_true_iff; split; [apply Z.geb_le | apply Z.ltb_lt]; lia).
  simpl. f_equal. case_decide as Heq.
  - rewrite Heq. apply Z.mod_same. lia.
  - apply Z.mod_small. lia.
Qed.

Lemma valid_fresh capacity storage :
  0 <= capacity < SIZE_MAX ->
  Z.of_nat (length storage) = capacity + 1 ->
  valid (fresh capacity storage).
Proof.
  intros Hc Hl. unfold fresh, ringbuf_reset. rewrite size_t_small by lia.
  split; simpl; lia.
Qed.

Lemma valid_reset rb : valid rb -> valid (ringbuf_reset rb).
Proof. intros []. split; simpl; lia. Qed.

(** Both constructors hand out [fresh] buffers. *)
Lemma ringbuf_new_fresh {heap : Type}
    (malloc_fun : Z -> heap -> option (positive * list Z) * heap)
    (free_fun : positive -> heap -> heap) capacity h p rb h' :
  ringbuf_new malloc_fun free_fun capacity h = (Some (p, rb), h') ->
  exists q storage h1,
    malloc_fun (size_t (capacity + 1)) h1 = (Some (q, storage), h') /\
    rb = fresh capacity storage.
Proof.
  unfold ringbuf_new.
  destruct (malloc_fun sizeof_ringbuf_t h) as [[[p' ?]|] h1]; [|done].
  destruct (malloc_fun (size_t (capacity + 1)) h1) as [[[q storage]|] h2] eqn:E;
    [|done].
  intros [= <- <- <-]. by exists q, storage, h1.
Qed.

Lemma ringbuf_new_static_fresh {heap : Type}
    (malloc_fun : Z -> heap -> option (positive * list Z) * heap)
    (free_fun : positive -> heap -> heap) capacity storage buf_size h p rb h' :
  ringbuf_new_static malloc_fun free_fun capacity (Some storage) buf_size h
    = Ok (Some (p, rb), h') ->
  buf_size = size_t (capacity + 1) /\ rb = fresh capacity storage.
Proof.
  unfold ringbuf_new_static. intros H. ok_inv H.
  apply Z.eqb_eq in Hassert.
  destruct (malloc_fun sizeof_ringbuf_t h) as [[[p' ?]|] h1]; [|done].
  by injection H as <- <- <-.
Qed.

(** ** The operations keep buffers well formed *)

Lemma evict_valid ov dst dst' :
  valid dst -> evict ov dst = Ok dst' ->
  valid dst' /\ size dst' = size dst /\ buf dst' = buf dst /\
  head dst' = head dst.
Proof.
  intros Hv H. destruct ov; simpl in H; [|injection H as <-; done].
  rewrite nextp_valid in H by apply Hv. simpl in H.
  ok_inv H. ok_inv H. subst dst'. destruct Hv. simpl.
  split; [split; simpl; try done; case_decide; lia | done].
Qed.

Lemma memcpy_into_loop_valid fuel : forall dst src count nread rb',
  valid dst ->
  memcpy_into_loop fuel dst src count nread = Ok rb' ->
  valid rb' /\ size rb' = size dst /\ tail rb' = tail dst.
Proof.
  induction fuel as [|fuel IH]; intros dst src count nread rb' Hv H;
    simpl in H; destruct (nread =? count);
    try discriminate; try (injection H as <-; done).
  ok_inv H. ok_inv H.
  apply memcpy_Ok in Hstep as (-> & Hb%in_bounds_spec & _).
  apply Z.gtb_lt in Hassert. unfold ringbuf_end, ringbuf_buffer_size in *.
  apply IH in H; [simpl in H; destruct H as (? & -> & ->);
                  split; [done|]; by destruct (_ =? _)|].
  destruct Hv. simpl.
  destruct (Z.eqb_spec (head dst + MIN (size dst - head dst)
                                       (size_t (count - nread))) (size dst));
    split; simpl; rewrite ?length_inserts; lia.
Qed.

Lemma memset_loop_valid fuel : forall dst c count nwritten rb' r,
  valid dst ->
  memset_loop fuel dst c count nwritten = Ok (rb', r) ->
  valid rb' /\ size rb' = size dst /\ tail rb' = tail dst /\ r = count.
Proof.
  induction fuel as [|fuel IH]; intros dst c count nwritten rb' r Hv H;
    simpl in H; destruct (Z.eqb_spec nwritten count);
    try discriminate; try (injection H as <- <-; done).
  ok_inv H. ok_inv H.
  apply memset_Ok in Hstep as (-> & Hb%in_bounds_spec).
  apply Z.gtb_lt in Hassert. unfold ringbuf_end, ringbuf_buffer_size in *.
  apply IH in H; [simpl in H; destruct H as (? & -> & -> & ->);
                  split; [done|]; by destruct (_ =? _)|].
  destruct Hv. simpl.
  destruct (Z.eqb_spec (head dst + MIN (size dst - head dst)
                                       (size_t (count - nwritten))) (size dst));
    split; simpl; rewrite ?length_inserts; lia.
Qed.

Lemma memcpy_from_loop_valid fuel : forall dst src count nwritten dst' rb',
  valid src ->
  memcpy_from_loop fuel dst src count nwritten = Ok (dst', rb') ->
  valid rb' /\ size rb' = size src /\ head rb' = head src /\
  buf rb' = buf src.
Proof.
  induction fuel as [|fuel IH]; intros dst src count nwritten dst' rb' Hv H;
    simpl in H; destruct (nwritten =? count);
    try discriminate; try (injection H as <- <-; done).
  ok_inv H. ok_inv H.
  apply memcpy_Ok in Hstep as (-> & _ & Hb%in_bounds_spec).
  apply Z.gtb_lt in Hassert. unfold ringbuf_end, ringbuf_buffer_size in *.
  apply IH in H; [simpl in H; destruct H as (? & -> & -> & ->);
                  split; [done|]; by destruct (_ =? _)|].
  destruct Hv. simpl.
  destruct (Z.eqb_spec (tail src + MIN (size src - tail src)
                                       (size_t (count - nwritten))) (size src));
    split; simpl; lia.
Qed.

Lemma copy_loop_valid fuel : forall dst src count ncopied dst' src',
  valid dst -> valid src ->
  copy_loop fuel dst src count ncopied = Ok (dst', src') ->
  (valid dst' /\ size dst' = size dst /\ tail dst' = tail dst) /\
  (valid src' /\ size src' = size src /\ head src' = head src /\
   buf src' = buf src).
Proof.
  induction fuel as [|fuel IH]; intros dst src count ncopied dst' src' Hd Hs H;
    simpl in H; destruct (ncopied =? count);
    try discriminate; try (injection H as <- <-; done).
  ok_inv H. ok_inv H. ok_inv H.
  apply memcpy_Ok in Hstep as (-> & Hb%in_bounds_spec & Hb'%in_bounds_spec).
  apply Z.gtb_lt in Hassert, Hassert0.
  unfold ringbuf_end, ringbuf_buffer_size in *.
  set (n := MIN (size dst - head dst)
              (MIN (size src - tail src) (size_t (count - ncopied)))) in *.
  apply IH in H.
  - simpl in H. destruct H as ((? & -> & ->) & (? & -> & -> & ->)).
    split_and!; try done; by repeat case_match.
  - destruct Hd. destruct (Z.eqb_spec (head dst + n) (size dst));
      split; simpl; rewrite ?length_inserts; lia.
  - destruct Hs. destruct (Z.eqb_spec (tail src + n) (size src));
      split; simpl; lia.
Qed.

Lemma copy_self_loop_valid fuel : forall rb count ncopied rb',
  valid rb ->
  copy_self_loop fuel rb count ncopied = Ok rb' ->
  valid rb' /\ size rb' = size rb.
Proof.
  induction fuel as [|fuel IH]; intros rb count ncopied rb' Hv H;
    simpl in H; destruct (ncopied =? count);
    try discriminate; try (injection H as <-; done).
  ok_inv H. ok_inv H. ok_inv H.
  unfold memcpy_within in Hstep. destruct (_ && _); [discriminate|].
  apply memcpy_Ok in Hstep as (-> & Hb%in_bounds_spec & Hb'%in_bounds_spec).
  apply Z.gtb_lt in Hassert, Hassert0.
  unfold ringbuf_end, ringbuf_buffer_size in *.
  set (n := MIN (size rb - head rb)
              (MIN (size rb - tail rb) (size_t (count - ncopied)))) in *.
  apply IH in H.
  - destruct H as (? & ->). split; [done|]. by repeat case_match.
  - destruct Hv.
    destruct (Z.eqb_spec (tail rb + n) (size rb)); simpl;
      destruct (Z.eqb_spec (head rb + n) (size rb));
      split; simpl; rewrite ?length_inserts; lia.
Qed.

Lemma findchr_rec_same fuel : forall rb c offset r rb',
  ringbuf_findchr_rec fuel rb c offset = Ok (r, rb') -> rb' = rb.
Proof.
  induction fuel as [|fuel IH]; intros rb c offset r rb' H; simpl in H;
    destruct (offset >=? ringbuf_bytes_used rb);
    try discriminate; try (by injection H as _ <-).
  destruct (ringbuf_buffer_size rb =? 0); [discriminate|].
  ok_inv H. ok_inv H. destruct a as [k|]; [by injection H as _ <-|eauto].
Qed.

Lemma valid_findchr rb c offset r rb' :
  valid rb -> ringbuf_findchr rb c offset = Ok (r, rb') -> valid rb'.
Proof. intros Hv H. by apply findchr_rec_same in H as ->. Qed.

Lemma valid_memset rb c len r rb' :
  valid rb -> ringbuf_memset rb c len = Ok (r, rb') -> valid rb'.
Proof.
  intros Hv H. unfold ringbuf_memset in H.
  ok_inv H. destruct a as [dst nwritten]. ok_inv H. injection H as _ <-.
  apply memset_loop_valid in Hstep as (Hv' & _); [|done].
  by apply evict_valid in Hstep0 as (? & _).
Qed.

Lemma valid_memcpy_into rb src count r rb' :
  valid rb -> ringbuf_memcpy_into rb src count = Ok (r, rb') -> valid rb'.
Proof.
  intros Hv H. unfold ringbuf_memcpy_into in H.
  ok_inv H. ok_inv H. injection H as _ <-.
  apply memcpy_into_loop_valid in Hstep as (Hv' & _); [|done].
  by apply evict_valid in Hstep0 as (? & _).
Qed.

Lemma valid_memcpy_from dst rb count r dst' rb' :
  valid rb -> ringbuf_memcpy_from dst rb count = Ok (r, dst', rb') -> valid rb'.
Proof.
  intros Hv H. unfold ringbuf_memcpy_from in H.
  destruct (count >? ringbuf_bytes_used rb); [by injection H as _ _ <-|].
  ok_inv H. destruct a as [d s]. ok_inv H. injection H as _ _ <-.
  by apply memcpy_from_loop_valid in Hstep as (? & _).
Qed.

Lemma valid_copy dst src count r dst' src' :
  valid dst -> valid src ->
  ringbuf_copy dst src count = Ok (r, dst', src') -> valid dst' /\ valid src'.
Proof.
  intros Hd Hs H. unfold ringbuf_copy in H.
  destruct (count >? ringbuf_bytes_used src); [by injection H as _ <- <-|].
  ok_inv H. destruct a as [d s]. ok_inv H. ok_inv H. injection H as _ <- <-.
  apply copy_loop_valid in Hstep as ((? & _) & (? & _)); [|done..].
  by apply evict_valid in Hstep0 as (? & _).
Qed.

Lemma valid_copy_self rb count r rb' :
  valid rb -> ringbuf_copy_self rb count = Ok (r, rb') -> valid rb'.
Proof.
  intros Hv H. unfold ringbuf_copy_self in H.
  destruct (count >? ringbuf_bytes_used rb); [by injection H as _ <-|].
  ok_inv H. ok_inv H. ok_inv H. injection H as _ <-.
  apply copy_self_loop_valid in Hstep as (? & _); [|done].
  by apply evict_valid in Hstep0 as (? & _).
Qed.

Lemma reachable_valid rb : reachable rb -> valid rb.
Proof.
  induction 1;
    eauto using valid_fresh, valid_reset, valid_findchr, valid_memset,
      valid_memcpy_into, valid_memcpy_from, valid_copy_self.
  - by edestruct valid_copy as [? ?]; [| |eassumption|].
  - by edestruct valid_copy as [? ?]; [| |eassumption|].
Qed.

(** ** The fuel of the entry points is never exhausted *)

Lemma bind_NoFuel {A B} (m : outcome A) (f : A -> outcome B) :
  m <> NoFuel -> (forall a, f a <> NoFuel) -> m ≫= f <> NoFuel.
Proof. destruct m; simpl; auto. Qed.

Lemma assert_NoFuel b : assert b <> NoFuel.
Proof. by destruct b. Qed.

Lemma evict_NoFuel ov dst : evict ov dst <> NoFuel.
Proof.
  destruct ov; [|done]. unfold evict, ringbuf_nextp.
  apply bind_NoFuel.
  - apply bind_NoFuel; [apply assert_NoFuel | done].
  - intros t. apply bind_NoFuel; [apply assert_NoFuel | done].
Qed.

(** Every pass of a loop moves at least one byte. *)
Ltac loop_fuel IH :=
  repeat lazymatch goal with
    | |- assert ?b ≫= _ <> NoFuel =>
        let E := fresh "Hassert" in
        destruct b eqn:E; [apply Z.gtb_lt in E; simpl | done]
    end;
  unfold memcpy_within, memcpy, memset, in_bounds;
  repeat (case_match; simpl; try done);
  repeat lazymatch goal with
    | H : _ && _ = true |- _ => apply andb_true_iff in H; destruct H
    | H : (_ <=? _) = true |- _ => apply Z.leb_le in H
    end;
  apply IH; rewrite ?MIN_spec in *;
  rewrite ?size_t_small in *; rewrite ?size_t_small; lia.

Lemma memcpy_into_loop_NoFuel fuel : forall dst src count nread,
  0 <= nread <= count -> count <= SIZE_MAX ->
  count - nread <= Z.of_nat fuel ->
  memcpy_into_loop fuel dst src count nread <> NoFuel.
Proof.
  induction fuel as [|fuel IH]; intros dst src count nread Hn Hc Hf; simpl;
    destruct (Z.eqb_spec nread count); try done; try lia.
  unfold ringbuf_end, ringbuf_buffer_size. loop_fuel IH.
Qed.

Lemma memset_loop_NoFuel fuel : forall dst c count nwritten,
  0 <= nwritten <= count -> count <= SIZE_MAX ->
  count - nwritten <= Z.of_nat fuel ->
  memset_loop fuel dst c count nwritten <> NoFuel.
Proof.
  induction fuel as [|fuel IH]; intros dst c count nwritten Hn Hc Hf; simpl;
    destruct (Z.eqb_spec nwritten count); try done; try lia.
  unfold ringbuf_end, ringbuf_buffer_size. loop_fuel IH.
Qed.

Lemma memcpy_from_loop_NoFuel fuel : forall dst src count nwritten,
  0 <= nwritten <= count -> count <= SIZE_MAX ->
  count - nwritten <= Z.of_nat fuel ->
  memcpy_from_loop fuel dst src count nwritten <> NoFuel.
Proof.
  induction fuel as [|fuel IH]; intros dst src count nwritten Hn Hc Hf; simpl;
    destruct (Z.eqb_spec nwritten count); try done; try lia.
  unfold ringbuf_end, ringbuf_buffer_size. loop_fuel IH.
Qed.

Lemma copy_loop_NoFuel fuel : forall dst src count ncopied,
  0 <= ncopied <= count -> count <= SIZE_MAX ->
  count - ncopied <= Z.of_nat fuel ->
  copy_loop fuel dst src count ncopied <> NoFuel.
Proof.
  induction fuel as [|fuel IH]; intros dst src count ncopied Hn Hc Hf; simpl;
    destruct (Z.eqb_spec ncopied count); try done; try lia.
  unfold ringbuf_end, ringbuf_buffer_size. loop_fuel IH.
Qed.

Lemma copy_self_loop_NoFuel fuel : forall rb count ncopied,
  0 <= ncopied <= count -> count <= SIZE_MAX ->
  count - ncopied <= Z.of_nat fuel ->
  copy_self_loop fuel rb count ncopied <> NoFuel.
Proof.
  induction fuel as [|fuel IH]; intros rb count ncopied Hn Hc Hf; simpl;
    destruct (Z.eqb_spec ncopied count); try done; try lia.
  unfold ringbuf_end, ringbuf_buffer_size. loop_fuel IH.
Qed.

Lemma findchr_rec_NoFuel rb c fuel : forall offset,
  0 <= offset <= SIZE_MAX ->
  ringbuf_bytes_used rb - offset <= Z.of_nat fuel ->
  ringbuf_findchr_rec fuel rb c offset <> NoFuel.
Proof.
  pose proof (size_t_range (ringbuf_capacity rb - ringbuf_bytes_free rb)) as Hu.
  fold (ringbuf_bytes_used rb) in Hu.
  induction fuel as [|fuel IH]; intros offset Ho Hf; simpl;
    destruct (Z.geb_spec offset (ringbuf_bytes_used rb)); try done; try lia.
  destruct (_ =? 0); [done|].
  destruct (ringbuf_end rb >? _) eqn:Hassert; [|done].
  apply Z.gtb_lt in Hassert. simpl.
  unfold memchr. case_match; [|done]. simpl.
  case_match; simpl; [done|].
  match goal with H : in_bounds _ _ _ = true |- _ =>
    apply in_bounds_spec in H end.
  rewrite MIN_spec in *.
  rewrite (size_t_small (ringbuf_bytes_used rb - offset)) in * by lia.
  apply IH; rewrite size_t_small; lia.
Qed.

(** With the argument and the [size] field in the range of [size_t], no
    entry point runs out of fuel: each outcome is a result, a failed
    assertion or undefined behaviour of the C function itself. *)
Lemma fuel_adequate (dst src : ringbuf_t) (bytes : list Z) (c n : Z) :
  0 <= n <= SIZE_MAX -> 0 <= size dst <= SIZE_MAX ->
  ringbuf_findchr dst c n <> NoFuel /\
  ringbuf_memset dst c n <> NoFuel /\
  ringbuf_memcpy_into dst bytes n <> NoFuel /\
  ringbuf_memcpy_from bytes src n <> NoFuel /\
  ringbuf_copy dst src n <> NoFuel /\
  ringbuf_copy_self dst n <> NoFuel.
Proof.
  intros Hn Hs. split_and!.
  - apply findchr_rec_NoFuel; lia.
  - unfold ringbuf_memset, ringbuf_buffer_size. apply bind_NoFuel.
    + apply memset_loop_NoFuel; rewrite MIN_spec; lia.
    + intros [rb r]. apply bind_NoFuel; [apply evict_NoFuel | done].
  - unfold ringbuf_memcpy_into. apply bind_NoFuel.
    + apply memcpy_into_loop_NoFuel; lia.
    + intros rb. apply bind_NoFuel; [apply evict_NoFuel | done].
  - unfold ringbuf_memcpy_from. case_match; [done|]. apply bind_NoFuel.
    + apply memcpy_from_loop_NoFuel; lia.
    + intros [d rb]. apply bind_NoFuel; [apply assert_NoFuel | done].
  - unfold ringbuf_copy. case_match; [done|]. apply bind_NoFuel.
    + apply copy_loop_NoFuel; lia.
    + intros [d rb]. apply bind_NoFuel; [apply assert_NoFuel|].
      intros _. apply bind_NoFuel; [apply evict_NoFuel | done].
  - unfold ringbuf_copy_self. case_match; [done|]. apply bind_NoFuel.
    + apply copy_self_loop_NoFuel; lia.
    + intros rb. apply bind_NoFuel; [apply assert_NoFuel|].
      intros _. apply bind_NoFuel; [apply evict_NoFuel | done].
Qed.

(** * The copy loops, one segment at a time *)

Lemma memcpy_in_bounds dst d src s n :
  0 <= d -> 0 <= s -> 0 <= n ->
  d + n <= Z.of_nat (length dst) -> s + n <= Z.of_nat (length src) ->
  memcpy dst d src s n =
    Ok (list_inserts (Z.to_nat d) (bytes_at src s n) dst).
Proof.
  intros. unfold memcpy.
  by rewrite !(proj2 (in_bounds_spec _ _ _)) by lia.
Qed.

Lemma memcpy_into_loop_done fuel dst src count nread :
  nread = count -> memcpy_into_loop fuel dst src count nread = Ok dst.
Proof. intros ->. destruct fuel; simpl; by rewrite Z.eqb_refl. Qed.

Lemma memcpy_into_loop_step fuel dst src count nread :
  valid dst -> 0 <= nread < count -> count <= SIZE_MAX ->
  count <= Z.of_nat (length src) ->
  memcpy_into_loop (S fuel) dst src count nread =
    let n := Z.min (size dst - head dst) (count - nread) in
    memcpy_into_loop fuel
      {| buf := list_inserts (Z.to_nat (head dst)) (bytes_at src nread n)
                  (buf dst);
         head := if decide (head dst + n = size dst) then 0 else head dst + n;
         tail := tail dst;
         size := size dst |}
      src count (nread + n).
Proof.
  intros [] Hn Hc Hl. simpl.
  destruct (Z.eqb_spec nread count); [lia|].
  unfold ringbuf_end, ringbuf_buffer_size.
  rewrite assert_true by (apply Z.gtb_lt; lia). simpl.
  rewrite MIN_spec, (size_t_small (count - nread)) by lia.
  rewrite memcpy_in_bounds by lia. simpl.
  rewrite size_t_small by lia.
  destruct (Z.eqb_spec (head dst + Z.min (size dst - head dst) (count - nread))
              (size dst)); case_decide; try lia; reflexivity.
Qed.

Lemma memcpy_from_loop_done fuel dst src count nwritten :
  nwritten = count ->
  memcpy_from_loop fuel dst src count nwritten = Ok (dst, src).
Proof. intros ->. destruct fuel; simpl; by rewrite Z.eqb_refl. Qed.

Lemma memcpy_from_loop_step fuel dst src count nwritten :
  valid src -> 0 <= nwritten < count -> count <= SIZE_MAX ->
  count <= Z.of_nat (length dst) ->
  memcpy_from_loop (S fuel) dst src count nwritten =
    let n := Z.min (size src - tail src) (count - nwritten) in
    memcpy_from_loop fuel
      (list_inserts (Z.to_nat nwritten) (bytes_at (buf src) (tail src) n) dst)
      (set_tail src (if decide (tail src + n = size src) then 0
                     else tail src + n))
      count (nwritten + n).
Proof.
  intros [] Hn Hc Hl. simpl.
  destruct (Z.eqb_spec nwritten count); [lia|].
  unfold ringbuf_end, ringbuf_buffer_size.
  rewrite assert_true by (apply Z.gtb_lt; lia). simpl.
  rewrite MIN_spec, (size_t_small (count - nwritten)) by lia.
  rewrite memcpy_in_bounds by lia. simpl.
  rewrite size_t_small by lia.
  destruct (Z.eqb_spec (tail src + Z.min (size src - tail src) (count - nwritten))
              (size src)); case_decide; try lia; reflexivity.
Qed.

Lemma wrap_mod sz p k :
  0 <= p < sz -> 0 <= k <= sz -> wrap sz p k = (p + k) mod sz.
Proof.
  intros. unfold wrap. case_decide.
  - symmetry. apply Z.mod_small. lia.
  - transitivity ((p + k - sz + 1 * sz) mod sz); [|f_equal; lia].
    rewrite Z.mod_add by lia. symmetry. apply Z.mod_small. lia.
Qed.

(** Writing [count <= size] bytes takes at most two segments: up to the
    end of the storage, then the remainder from its start. *)
Lemma memcpy_into_loop_spec fuel dst src count :
  valid dst -> 0 <= count <= size dst ->
  count <= Z.of_nat (length src) -> (Z.to_nat count <= fuel)%nat ->
  memcpy_into_loop fuel dst src count 0 =
    Ok (let n := Z.min (size dst - head dst) count in
        {| buf := list_inserts 0 (bytes_at src n (count - n))
                    (list_inserts (Z.to_nat (head dst)) (bytes_at src 0 n)
                       (buf dst));
           head := wrap (size dst) (head dst) count;
           tail := tail dst;
           size := size dst |}).
Proof.
  intros Hv Hc Hl Hf. pose proof Hv as [].
  destruct (decide (count = 0)) as [->|].
  { rewrite memcpy_into_loop_done by lia. destruct dst; simpl in *.
    unfold wrap, bytes_at. rewrite decide_True by lia.
    replace (Z.min (size0 - head0) 0) with 0 by lia. simpl.
    by rewrite Z.add_0_r. }
  destruct fuel as [|fuel]; [lia|].
  rewrite memcpy_into_loop_step by (done || lia). simpl. rewrite Z.sub_0_r.
  destruct (decide (count <= size dst - head dst)).
  { replace (Z.min (size dst - head dst) count) with count by lia.
    rewrite memcpy_into_loop_done by lia. unfold wrap, bytes_at.
    rewrite Z.sub_diag. simpl.
    do 2 f_equal. repeat case_decide; lia. }
  replace (Z.min (size dst - head dst) count) with (size dst - head dst) by lia.
  destruct fuel as [|fuel]; [lia|].
  rewrite memcpy_into_loop_step; [|split; simpl; rewrite ?length_inserts; try lia; case_decide; lia|lia..].
  simpl. rewrite decide_True by lia.
  rewrite !Z.add_0_l, !Z.sub_0_r, (Z.min_r (size dst)) by lia.
  rewrite memcpy_into_loop_done by lia. unfold wrap.
  do 2 f_equal. repeat case_decide; lia.
Qed.

(** Reading [count <= bytes_used] bytes takes at most two segments. *)
Lemma memcpy_from_loop_spec fuel dst src count :
  valid src -> 0 <= count < size src ->
  count <= Z.of_nat (length dst) -> (Z.to_nat count <= fuel)%nat ->
  memcpy_from_loop fuel dst src count 0 =
    Ok (let n := Z.min (size src - tail src) count in
        (list_inserts (Z.to_nat n) (bytes_at (buf src) 0 (count - n))
           (list_inserts 0 (bytes_at (buf src) (tail src) n) dst),
         set_tail src (wrap (size src) (tail src) count))).
Proof.
  intros Hv Hc Hl Hf. pose proof Hv as [].
  destruct (decide (count = 0)) as [->|].
  { rewrite memcpy_from_loop_done by lia. destruct src; simpl in *.
    unfold wrap, bytes_at, set_tail. rewrite decide_True by lia.
    replace (Z.min (size0 - tail0) 0) with 0 by lia. simpl.
    by rewrite Z.add_0_r. }
  destruct fuel as [|fuel]; [lia|].
  rewrite memcpy_from_loop_step by (done || lia). simpl. rewrite Z.sub_0_r.
  destruct (decide (count <= size src - tail src)).
  { replace (Z.min (size src - tail src) count) with count by lia.
    rewrite memcpy_from_loop_done by lia. unfold wrap, bytes_at.
    rewrite Z.sub_diag. simpl.
    do 3 f_equal. repeat case_decide; lia. }
  replace (Z.min (size src - tail src) count) with (size src - tail src) by lia.
  destruct fuel as [|fuel]; [lia|].
  rewrite memcpy_from_loop_step;
    [|split; simpl; try lia; case_decide; lia|lia|lia
     |rewrite length_inserts; lia].
  simpl. rewrite decide_True by lia.
  rewrite !Z.add_0_l, !Z.sub_0_r, (Z.min_r (size src)) by lia.
  rewrite memcpy_from_loop_done by lia. unfold wrap, set_tail. simpl.
  do 3 f_equal. repeat case_decide; lia.
Qed.

(** * Storage contents, byte by byte *)

Lemma lookup_bytes_at (l : list Z) off n (i : nat) :
  bytes_at l off n !! i =
    if decide (Z.of_nat i < n) then l !! (Z.to_nat off + i)%nat else None.
Proof.
  unfold bytes_at. case_decide.
  - rewrite lookup_take_lt by lia. apply lookup_drop.
  - apply lookup_take_ge. lia.
Qed.

Lemma length_bytes_at (l : list Z) off n :
  0 <= off -> 0 <= n -> off + n <= Z.of_nat (length l) ->
  length (bytes_at l off n) = Z.to_nat n.
Proof. intros. unfold bytes_at. rewrite length_take, length_drop. lia. Qed.

Lemma lookup_inserts (l k : list Z) (i j : nat) :
  list_inserts i k l !! j =
    if decide (i <= j < i + length k /\ j < length l)%nat
    then k !! (j - i)%nat else l !! j.
Proof.
  case_decide as Hd.
  - apply list_lookup_inserts; lia.
  - destruct (decide (j < i)%nat); [by apply list_lookup_inserts_lt|].
    destruct (decide (i + length k <= j)%nat);
      [by apply list_lookup_inserts_ge|].
    rewrite (lookup_ge_None_2 l) by lia.
    apply lookup_ge_None_2. rewrite length_inserts. lia.
Qed.

Lemma lookup_app_decide (l1 l2 : list Z) (i : nat) :
  (l1 ++ l2) !! i =
    if decide (i < length l1)%nat then l1 !! i
    else l2 !! (i - length l1)%nat.
Proof.
  case_decide; [by apply lookup_app_l | apply lookup_app_r; lia].
Qed.

(** What a two-segment write of [count] bytes at [h] leaves in slot [i]. *)
Lemma lookup_written (b src : list Z) sz h count (i : nat) :
  Z.of_nat (length b) = sz -> 0 <= h < sz -> 0 <= count <= sz ->
  count <= Z.of_nat (length src) ->
  let n := Z.min (sz - h) count in
  list_inserts 0 (bytes_at src n (count - n))
    (list_inserts (Z.to_nat h) (bytes_at src 0 n) b) !! i =
    if decide (Z.of_nat i < sz /\ offset_from sz h (Z.of_nat i) < count)
    then src !! Z.to_nat (offset_from sz h (Z.of_nat i))
    else b !! i.
Proof.
  intros Hb Hh Hc Hs n. unfold offset_from.
  rewrite !lookup_inserts, length_inserts, !lookup_bytes_at,
    !length_bytes_at by lia.
  repeat case_decide; try lia; f_equal; lia.
Qed.

(** What a two-segment read of [count] bytes from [t] leaves in the
    destination. *)
Lemma lookup_read (b dst : list Z) sz t count (i : nat) :
  Z.of_nat (length b) = sz -> 0 <= t < sz -> 0 <= count <= sz ->
  count <= Z.of_nat (length dst) ->
  let n := Z.min (sz - t) count in
  list_inserts (Z.to_nat n) (bytes_at b 0 (count - n))
    (list_inserts 0 (bytes_at b t n) dst) !! i =
    if decide (Z.of_nat i < count)
    then b !! Z.to_nat (wrap sz t (Z.of_nat i))
    else dst !! i.
Proof.
  intros Hb Ht Hc Hd n. unfold wrap.
  rewrite !lookup_inserts, length_inserts, !lookup_bytes_at,
    !length_bytes_at by lia.
  repeat case_decide; try lia; f_equal; lia.
Qed.

Lemma length_contents rb :
  valid rb -> Z.of_nat (length (contents rb)) = ringbuf_bytes_used rb.
Proof.
  intros Hv. pose proof (bytes_used_range rb Hv). destruct Hv.
  unfold contents, ringbuf_end, ringbuf_buffer_size.
  rewrite MIN_spec, length_app, !length_bytes_at; lia.
Qed.

Lemma lookup_contents rb (j : nat) :
  valid rb ->
  contents rb !! j =
    if decide (Z.of_nat j < ringbuf_bytes_used rb)
    then buf rb !! Z.to_nat (wrap (size rb) (tail rb) (Z.of_nat j))
    else None.
Proof.
  intros Hv. pose proof (bytes_used_range rb Hv). destruct Hv.
  unfold contents, ringbuf_end, ringbuf_buffer_size, wrap.
  rewrite MIN_spec, lookup_app_decide, !lookup_bytes_at,
    !length_bytes_at by lia.
  repeat case_decide; try lia; f_equal; lia.
Qed.

(** * The writers in closed form *)

Lemma valid_written dst src count :
  valid dst -> 0 <= count <= size dst -> valid (written dst src count).
Proof.
  intros [] Hc. unfold written, wrap.
  split; simpl; rewrite ?length_inserts; repeat case_decide; lia.
Qed.

Lemma lookup_buf_written dst src count (i : nat) :
  valid dst -> 0 <= count <= size dst -> count <= Z.of_nat (length src) ->
  buf (written dst src count) !! i =
    if decide (Z.of_nat i < size dst /\
               offset_from (size dst) (head dst) (Z.of_nat i) < count)
    then src !! Z.to_nat (offset_from (size dst) (head dst) (Z.of_nat i))
    else buf dst !! i.
Proof. intros [] ??. by apply lookup_written. Qed.

Lemma evict_spec ov dst :
  valid dst ->
  evict ov dst =
    Ok (if ov then set_tail dst (wrap (size dst) (head dst) 1) else dst).
Proof.
  intros Hv. destruct ov; [|done]. unfold evict.
  rewrite nextp_valid by apply Hv. simpl.
  assert (valid (set_tail dst (wrap (size dst) (head dst) 1))) as Hv'.
  { destruct Hv. unfold wrap. split; simpl; repeat case_decide; lia. }
  unfold wrap in *.
  replace (if decide (head dst + 1 = size dst) then 0 else head dst + 1)
    with (if decide (head dst + 1 < size dst) then head dst + 1
          else head dst + 1 - size dst)
    by (destruct Hv; repeat case_decide; lia).
  rewrite assert_true; [done|].
  unfold ringbuf_is_full. rewrite bytes_free_valid by done.
  destruct Hv. simpl. apply Z.eqb_eq. repeat case_decide; lia.
Qed.

Lemma memcpy_into_spec dst src count :
  valid dst -> 0 <= count <= size dst -> count <= Z.of_nat (length src) ->
  ringbuf_memcpy_into dst src count =
    Ok (head (written dst src count), written dst src count).
Proof.
  intros Hv Hc Hl. unfold ringbuf_memcpy_into.
  rewrite memcpy_into_loop_spec by (done || lia). simpl.
  rewrite evict_spec
    by (destruct Hv; unfold wrap; split; simpl; rewrite ?length_inserts;
        repeat case_decide; lia).
  simpl. unfold written.
  destruct (Z.gtb_spec count (ringbuf_bytes_free dst));
    case_decide; try lia; reflexivity.
Qed.

(** [ringbuf_memset] writes what [ringbuf_memcpy_into] writes from a run
    of the fill byte. *)
Lemma bytes_at_replicate (x : Z) N s n :
  0 <= s -> 0 <= n -> s + n <= N ->
  bytes_at (replicate (Z.to_nat N) x) s n = replicate (Z.to_nat n) x.
Proof.
  intros. unfold bytes_at. rewrite drop_replicate, take_replicate.
  f_equal. lia.
Qed.

Lemma memset_loop_memcpy fuel : forall dst c count nwritten,
  0 <= nwritten <= count -> count <= SIZE_MAX ->
  memset_loop fuel dst c count nwritten =
    (rb ← memcpy_into_loop fuel dst (replicate (Z.to_nat count) (uchar c))
            count nwritten;
     Ok (rb, count)).
Proof.
  induction fuel as [|fuel IH]; intros dst c count nwritten Hn Hc; simpl;
    destruct (Z.eqb_spec nwritten count) as [->|Hne]; try done.
  destruct (assert _); try done. simpl.
  rewrite (size_t_small (count - nwritten)) by lia.
  set (n := MIN _ _).
  assert (n <= count - nwritten)
    by (subst n; rewrite MIN_spec; lia).
  unfold memset, memcpy.
  destruct (in_bounds (buf dst) (head dst) n) eqn:Hb; [|done].
  apply in_bounds_spec in Hb.
  rewrite (proj2 (in_bounds_spec _ _ _))
    by (rewrite length_replicate; lia).
  simpl. rewrite bytes_at_replicate with (n := n) by lia.
  rewrite size_t_small by lia. apply IH; lia.
Qed.

Lemma memset_spec dst c len :
  valid dst -> 0 <= len <= SIZE_MAX ->
  let count := Z.min len (size dst) in
  ringbuf_memset dst c len =
    Ok (count, written dst (replicate (Z.to_nat count) (uchar c)) count).
Proof.
  intros Hv Hl count. pose proof Hv as [].
  pose proof (memcpy_into_spec dst (replicate (Z.to_nat count) (uchar c))
                count Hv) as Hinto.
  unfold ringbuf_memcpy_into in Hinto.
  unfold ringbuf_memset, ringbuf_buffer_size. rewrite MIN_spec.
  fold count. rewrite memset_loop_memcpy by lia.
  destruct (memcpy_into_loop _ _ _ _ _) as [rb| | |]; simpl in *;
    try (discriminate Hinto; rewrite ?length_replicate; lia).
  destruct (evict _ rb) as [rb'| | |]; simpl in *;
    try (discriminate Hinto; rewrite ?length_replicate; lia).
  f_equal. f_equal.
  assert (Ok (head rb', rb') =
          Ok (head (written dst (replicate (Z.to_nat count) (uchar c)) count),
              written dst (replicate (Z.to_nat count) (uchar c)) count))
    as Heq by (apply Hinto; rewrite ?length_replicate; lia).
  by injection Heq.
Qed.

(** * The reader in closed form *)

Lemma memcpy_from_spec dst src count :
  valid src -> 0 <= count <= ringbuf_bytes_used src ->
  count <= Z.of_nat (length dst) ->
  let t := wrap (size src) (tail src) count in
  ringbuf_memcpy_from dst src count =
    Ok (Some t, read_into dst src count, set_tail src t).
Proof.
  intros Hv Hc Hl t. pose proof (bytes_used_range src Hv) as Hu.
  unfold ringbuf_memcpy_from.
  destruct (Z.gtb_spec count (ringbuf_bytes_used src)); [lia|].
  rewrite memcpy_from_loop_spec by (done || lia). simpl. fold t.
  assert (valid (set_tail src t)) as Hv'.
  { destruct Hv. subst t. unfold wrap.
    split; simpl; repeat case_decide; lia. }
  rewrite assert_true; [done|]. apply Z.eqb_eq.
  rewrite (bytes_used_valid (set_tail src t)) by done.
  rewrite (bytes_used_valid src) in * by done.
  destruct Hv. simpl. subst t. unfold wrap.
  rewrite size_t_small; repeat case_decide; lia.
Qed.

(** * Properties of the specification *)

(** C1. Round trip. Into an empty well-formed buffer ([head = tail],
    anywhere in the storage), [ringbuf_memcpy_into] of the [N] bytes of
    [src], [N <= capacity], followed by [ringbuf_memcpy_from] of [N] bytes
    succeeds; the [N] bytes read are [src], in order, and the buffer is
    empty again: [head = tail], [ringbuf_bytes_used] is [0] and
    [ringbuf_is_empty] holds. *)
Theorem roundtrip_fifo (rb : ringbuf_t) (src dst : list Z) :
  valid rb -> head rb = tail rb ->
  Z.of_nat (length src) <= ringbuf_capacity rb ->
  (length src <= length dst)%nat ->
  let N := Z.of_nat (length src) in
  exists h rb1 t dst' rb2,
    ringbuf_memcpy_into rb src N = Ok (h, rb1) /\
    ringbuf_memcpy_from dst rb1 N = Ok (Some t, dst', rb2) /\
    take (length src) dst' = src /\
    drop (length src) dst' = drop (length src) dst /\
    head rb2 = tail rb2 /\
    ringbuf_bytes_used rb2 = 0 /\
    ringbuf_is_empty rb2 = true.
Proof.
  intros Hv Hemp Hcap Hd N. rewrite capacity_valid in Hcap by done.
  pose proof Hv as [].
  assert (valid (written rb src N)) as Hv1
    by (apply valid_written; [done | lia]).
  assert (ringbuf_bytes_free rb = size rb - 1) as Hfree
    by (rewrite bytes_free_valid by done; case_decide; lia).
  assert (head (written rb src N) = wrap (size rb) (head rb) N) as Hh1 by done.
  assert (tail (written rb src N) = tail rb) as Ht1
    by (unfold written; simpl; case_decide; [lia | done]).
  assert (ringbuf_bytes_used (written rb src N) = N) as Hused.
  { rewrite bytes_used_valid, Hh1, Ht1 by done. unfold wrap. simpl.
    repeat case_decide; lia. }
  do 5 eexists.
  split; [apply memcpy_into_spec; done || lia|].
  split; [apply memcpy_from_spec; done || lia|].
  assert (valid (set_tail (written rb src N)
                   (wrap (size (written rb src N)) (tail (written rb src N)) N)))
    as Hv2.
  { rewrite Ht1. unfold wrap, set_tail.
    split; cbn [head tail size buf]; try apply Hv1.
    change (size (written rb src N)) with (size rb).
    repeat case_decide; lia. }
  split_and!.
  - apply list_eq. intros i. unfold read_into.
    rewrite lookup_take. case_decide; [|symmetry; apply lookup_ge_None_2; lia].
    rewrite (lookup_read _ _ (size rb))
      by (rewrite ?Ht1; apply Hv1 || lia).
    rewrite decide_True, Ht1, lookup_buf_written by (done || lia).
    unfold offset_from, wrap.
    repeat case_decide; try lia; f_equal; lia.
  - apply list_eq. intros i. unfold read_into.
    rewrite !lookup_drop.
    rewrite (lookup_read _ _ (size rb))
      by (rewrite ?Ht1; apply Hv1 || lia).
    rewrite decide_False by lia. done.
  - unfold set_tail. cbn [head tail size].
    change (size (written rb src N)) with (size rb). rewrite Hh1, Ht1.
    unfold wrap. repeat case_decide; lia.
  - rewrite bytes_used_valid by done.
    unfold set_tail. cbn [head tail size].
    change (size (written rb src N)) with (size rb). rewrite Hh1, Ht1.
    unfold wrap. repeat case_decide; lia.
  - unfold ringbuf_is_empty. apply Z.eqb_eq.
    rewrite capacity_valid, bytes_free_valid by done.
    unfold set_tail. cbn [head tail size].
    change (size (written rb src N)) with (size rb). rewrite Hh1, Ht1.
    unfold wrap. repeat case_decide; lia.
Qed.

(** The unread bytes after a write of [count <= size] bytes: the bytes
    unread before, then the bytes written, less the oldest
    [count - bytes_free] of them when that is positive. *)
Lemma contents_written dst src count :
  valid dst -> 0 <= count <= size dst -> count <= Z.of_nat (length src) ->
  contents (written dst src count) =
    drop (Z.to_nat (Z.max 0 (count - ringbuf_bytes_free dst)))
      (contents dst ++ take (Z.to_nat count) src).
Proof.
  intros Hv Hc Hl.
  pose proof (valid_written dst src count Hv Hc) as Hv'.
  pose proof (length_contents dst Hv) as Hlen.
  apply list_eq. intros j.
  rewrite lookup_drop, lookup_app_decide, lookup_take, !lookup_contents,
    lookup_buf_written by (done || lia).
  rewrite (bytes_used_valid (written dst src count)) by done.
  rewrite bytes_used_valid in * by done.
  rewrite bytes_free_valid by done.
  unfold written. cbn [head tail size]. rewrite bytes_free_valid by done.
  destruct Hv. unfold wrap, offset_from.
  repeat case_decide; try lia; f_equal; lia.
Qed.

Lemma is_full_written dst src count :
  valid dst -> 0 <= count <= size dst ->
  ringbuf_bytes_free dst <= count ->
  ringbuf_is_full (written dst src count) = true.
Proof.
  intros Hv Hc Hf.
  pose proof (valid_written dst src count Hv Hc) as Hv'.
  unfold ringbuf_is_full. apply Z.eqb_eq.
  rewrite bytes_free_valid by done.
  unfold written in *. cbn [head tail size] in *.
  rewrite bytes_free_valid in * by done.
  destruct Hv. unfold wrap.
  repeat case_decide; lia.
Qed.

(** The scenario of capacity 4, on any initial storage. *)
Lemma scenario_AB_CDE (storage : list Z) :
  length storage = 5%nat ->
  exists h1 rb1 h2 rb2,
    ringbuf_memcpy_into (fresh 4 storage) (bytes_of_string "AB") 2
      = Ok (h1, rb1) /\
    ringbuf_bytes_used rb1 = 2 /\ ringbuf_bytes_free rb1 = 2 /\
    ringbuf_memcpy_into rb1 (bytes_of_string "CDE") 3 = Ok (h2, rb2) /\
    ringbuf_bytes_used rb2 = 4 /\ ringbuf_is_full rb2 = true /\
    contents rb2 = bytes_of_string "BCDE".
Proof.
  intros Hst.
  do 5 (destruct storage as [|? storage]; try discriminate).
  destruct storage; [|discriminate].
  do 4 eexists.
  split; [vm_compute; reflexivity|].
  split; [vm_compute; reflexivity|].
  split; [vm_compute; reflexivity|].
  split; [vm_compute; reflexivity|].
  split; [vm_compute; reflexivity|].
  split; vm_compute; reflexivity.
Qed.

(** C2. Overflow eviction. For a well-formed buffer and [K <= size],
    writing [K] bytes with [ringbuf_memcpy_into] or [ringbuf_memset]
    succeeds and leaves as unread bytes the bytes unread before followed
    by the [K] bytes written, without the oldest
    [max 0 (K - bytes_free_before)] of that sequence: the most recent bytes
    are retained. The buffer is full afterwards whenever
    [K >= bytes_free_before]. In particular, in a fresh buffer of capacity
    4, writing "AB" leaves 2 bytes used and 2 free, and then writing "CDE"
    leaves the buffer full with 4 bytes used and contents "BCDE". *)
Theorem overflow_eviction (rb : ringbuf_t) (src storage : list Z) (K c : Z) :
  valid rb -> 0 <= K <= size rb -> K <= Z.of_nat (length src) ->
  length storage = 5%nat ->
  let evicted := Z.max 0 (K - ringbuf_bytes_free rb) in
  (exists h rb',
     ringbuf_memcpy_into rb src K = Ok (h, rb') /\
     contents rb' =
       drop (Z.to_nat evicted) (contents rb ++ take (Z.to_nat K) src) /\
     (K >= ringbuf_bytes_free rb -> ringbuf_is_full rb' = true)) /\
  (exists rb',
     ringbuf_memset rb c K = Ok (K, rb') /\
     contents rb' =
       drop (Z.to_nat evicted)
         (contents rb ++ replicate (Z.to_nat K) (uchar c)) /\
     (K >= ringbuf_bytes_free rb -> ringbuf_is_full rb' = true)) /\
  (exists h1 rb1 h2 rb2,
     ringbuf_memcpy_into (fresh 4 storage) (bytes_of_string "AB") 2
       = Ok (h1, rb1) /\
     ringbuf_bytes_used rb1 = 2 /\ ringbuf_bytes_free rb1 = 2 /\
     ringbuf_memcpy_into rb1 (bytes_of_string "CDE") 3 = Ok (h2, rb2) /\
     ringbuf_bytes_used rb2 = 4 /\ ringbuf_is_full rb2 = true /\
     contents rb2 = bytes_of_string "BCDE").
Proof.
  intros Hv HK Hsrc Hst evicted. pose proof Hv as []. split_and!.
  - do 2 eexists. split; [by apply memcpy_into_spec|].
    split; [by apply contents_written|].
    intros. apply is_full_written; done || lia.
  - do 1 eexists.
    pose proof (memset_spec rb c K Hv ltac:(lia)) as Hm. simpl in Hm.
    rewrite Z.min_l in Hm by lia.
    split; [exact Hm|].
    split.
    + rewrite contents_written by (rewrite ?length_replicate; done || lia).
      by rewrite take_replicate, Nat.min_id.
    + intros. apply is_full_written; done || lia.
  - by apply scenario_AB_CDE.
Qed.

(** C7. Fill. For a well-formed buffer and any [len], [ringbuf_memset]
    returns [min len size], the number of bytes written. It stores the
    fill byte (the [int c] converted to a byte) in the [min len size]
    slots that follow the old [head], wrapping at the end of the storage,
    leaves every other slot as it was, and advances [head] by
    [min len size] modulo [size]. *)
Theorem memset_fill (rb : ringbuf_t) (c len : Z) :
  valid rb -> 0 <= len <= SIZE_MAX ->
  let count := Z.min len (size rb) in
  exists rb',
    ringbuf_memset rb c len = Ok (count, rb') /\
    head rb' = (head rb + count) mod size rb /\
    size rb' = size rb /\
    length (buf rb') = length (buf rb) /\
    (forall k, 0 <= k < count ->
       buf rb' !! Z.to_nat ((head rb + k) mod size rb) = Some (uchar c)) /\
    (forall i : nat,
       (forall k, 0 <= k < count ->
          Z.of_nat i <> (head rb + k) mod size rb) ->
       buf rb' !! i = buf rb !! i).
Proof.
  intros Hv Hlen count. pose proof Hv as [].
  eexists. split; [by apply memset_spec|]. fold count.
  assert (Z.of_nat (length (replicate (Z.to_nat count) (uchar c))) = count)
    as Hrep by (rewrite length_replicate; lia).
  split_and!.
  - unfold written. cbn [head]. apply wrap_mod; lia.
  - done.
  - unfold written. cbn [buf]. by rewrite !length_inserts.
  - intros k Hk. rewrite <- wrap_mod by lia.
    rewrite lookup_buf_written by (done || lia).
    unfold wrap, offset_from.
    repeat case_decide; try lia; apply lookup_replicate_2; lia.
  - intros i Hi. rewrite lookup_buf_written by (done || lia).
    case_decide as Hd; [|done]. destruct Hd as [Hd1 Hd2].
    exfalso. apply (Hi (offset_from (size rb) (head rb) (Z.of_nat i))).
    + unfold offset_from in *. case_decide; lia.
    + rewrite <- wrap_mod; unfold wrap, offset_from in *;
        repeat case_decide; lia.
Qed.

(** * Search *)

Lemma first_at_unique l b off r1 r2 :
  first_at l b off r1 -> first_at l b off r2 -> r1 = r2.
Proof.
  intros (Hr1 & Hhit1 & Hmiss1) (Hr2 & Hhit2 & Hmiss2).
  destruct (Z.lt_trichotomy r1 r2) as [Hlt | [-> | Hlt]]; [|done|].
  - destruct Hhit1 as [? Hhit1]; [lia|].
    destruct (Hmiss2 (Z.to_nat r1)); [lia | done].
  - destruct Hhit2 as [? Hhit2]; [lia|].
    destruct (Hmiss1 (Z.to_nat r2)); [lia | done].
Qed.

Lemma flat_findchr_first l c off :
  0 <= off -> first_at l (uchar c) off (flat_findchr l c off).
Proof.
  intros Hoff. unfold flat_findchr, first_at.
  destruct (Z.geb_spec off (Z.of_nat (length l))); [split_and!; lia|].
  destruct (list_find _ _) as [[i x]|] eqn:Hfind.
  - apply list_find_Some in Hfind as (Hi & -> & Hmin).
    rewrite lookup_drop in Hi. pose proof (lookup_lt_Some _ _ _ Hi).
    split_and!; try lia.
    + intros _. split; [lia|]. rewrite <- Hi. f_equal. lia.
    + intros j Hj Hl. apply (Hmin (j - Z.to_nat off)%nat (uchar c)); [|lia|done].
      rewrite lookup_drop, <- Hl. f_equal. lia.
  - apply list_find_None in Hfind. rewrite Forall_forall in Hfind.
    split_and!; try lia. intros j Hj Hl.
    apply (Hfind (uchar c)); [|done].
    apply list_elem_of_lookup. exists (j - Z.to_nat off)%nat.
    rewrite lookup_drop, <- Hl. f_equal. lia.
Qed.

Lemma memchr_spec (s : list Z) start c n :
  0 <= start -> 0 <= n -> start + n <= Z.of_nat (length s) ->
  exists o, memchr s start c n = Ok o /\
    match o with
    | Some k =>
        0 <= k < n /\ s !! Z.to_nat (start + k) = Some (uchar c) /\
        forall j : nat, Z.of_nat j < k ->
          s !! Z.to_nat (start + Z.of_nat j) <> Some (uchar c)
    | None =>
        forall j : nat, Z.of_nat j < n ->
          s !! Z.to_nat (start + Z.of_nat j) <> Some (uchar c)
    end.
Proof.
  intros Hs Hn Hb. unfold memchr.
  rewrite (proj2 (in_bounds_spec _ _ _)) by lia.
  eexists. split; [reflexivity|].
  destruct (list_find _ _) as [[i x]|] eqn:Hfind; simpl.
  - apply list_find_Some in Hfind as (Hi & -> & Hmin).
    rewrite lookup_bytes_at in Hi. case_decide; [|done].
    split_and!; try lia.
    + rewrite <- Hi. f_equal. lia.
    + intros j Hj Hl. apply (Hmin j (uchar c)); [|lia|done].
      rewrite lookup_bytes_at, decide_True by lia. rewrite <- Hl. f_equal. lia.
  - apply list_find_None in Hfind. rewrite Forall_forall in Hfind.
    intros j Hj Hl. apply (Hfind (uchar c)); [|done].
    apply list_elem_of_lookup. exists j.
    rewrite lookup_bytes_at, decide_True by lia. rewrite <- Hl. f_equal. lia.
Qed.

Lemma findchr_rec_first rb c fuel : forall offset,
  valid rb -> size rb <= PTRDIFF_MAX -> 0 <= offset <= SIZE_MAX ->
  ringbuf_bytes_used rb - offset <= Z.of_nat fuel ->
  exists r, ringbuf_findchr_rec fuel rb c offset = Ok (r, rb) /\
            first_at (contents rb) (uchar c) offset r.
Proof.
  intros offset Hv Hp. revert offset.
  pose proof (length_contents rb Hv) as Hlen.
  pose proof (bytes_used_range rb Hv) as Hu.
  pose proof Hv as [].
  induction fuel as [|fuel IH]; intros offset Hoff Hfuel; simpl;
    destruct (Z.geb_spec offset (ringbuf_bytes_used rb));
    try (eexists; split; [reflexivity|]; unfold first_at; split_and!; lia);
    try lia.
  unfold ringbuf_end, ringbuf_buffer_size. unfold SIZE_MAX, PTRDIFF_MAX in *.
  destruct (Z.eqb_spec (size rb) 0) as [|Hnz]; [lia|].
  rewrite (size_t_small (tail rb + offset)) by (unfold SIZE_MAX; lia).
  rewrite <- wrap_mod by lia.
  remember (wrap (size rb) (tail rb) offset) as start eqn:Hstart.
  unfold wrap in Hstart.
  assert (0 <= start < size rb) by (case_decide; lia).
  rewrite assert_true by (apply Z.gtb_lt; lia). simpl.
  rewrite MIN_spec, (size_t_small (_ - offset)) by (unfold SIZE_MAX; lia).
  remember (Z.min (size rb - start) (ringbuf_bytes_used rb - offset)) as n
    eqn:Hn.
  destruct (memchr_spec (buf rb) start c n) as (o & -> & Ho); [lia..|].
  simpl. destruct o as [k|].
  - destruct Ho as (Hk & Hhit & Hmiss).
    rewrite size_t_small by (unfold SIZE_MAX; lia).
    eexists. split; [reflexivity|]. unfold first_at. split_and!; try lia.
    + intros _. split; [lia|].
      rewrite lookup_contents, decide_True by (done || lia).
      rewrite <- Hhit. f_equal. unfold wrap.
      repeat case_decide; lia.
    + intros j Hj. rewrite lookup_contents, decide_True by (done || lia).
      intros Hl. apply (Hmiss (j - Z.to_nat offset)%nat); [lia|].
      rewrite <- Hl. f_equal. unfold wrap.
      repeat case_decide; lia.
  - rewrite size_t_small by (unfold SIZE_MAX; lia).
    destruct (IH (offset + n)) as (r & -> & Hr & Hhit & Hmiss);
      [unfold SIZE_MAX; lia | lia |].
    eexists. split; [reflexivity|]. unfold first_at. split_and!; try lia.
    + intros Hlt. destruct (Hhit Hlt). split; [lia | done].
    + intros j Hj. destruct (decide (Z.of_nat j < offset + n)).
      * rewrite lookup_contents, decide_True by (done || lia).
        intros Hl. apply (Ho (j - Z.to_nat offset)%nat); [lia|].
        rewrite <- Hl. f_equal. unfold wrap.
        repeat case_decide; lia.
      * apply Hmiss. lia.
Qed.

(** C6. Search. In a well-formed buffer (of at most [PTRDIFF_MAX] slots,
    the largest object C has), [ringbuf_findchr] returns the offset, from
    [tail], that a search for [c] from [offset] finds in the flat copy
    [contents] of the unread bytes; at [offset >= bytes_used] it returns
    [bytes_used]; and the buffer it hands back is the one it was given. *)
Theorem findchr_flat (rb : ringbuf_t) (c offset : Z) :
  valid rb -> size rb <= PTRDIFF_MAX -> 0 <= offset <= SIZE_MAX ->
  ringbuf_findchr rb c offset =
    Ok (flat_findchr (contents rb) c offset, rb) /\
  (offset >= ringbuf_bytes_used rb ->
   ringbuf_findchr rb c offset = Ok (ringbuf_bytes_used rb, rb)).
Proof.
  intros Hv Hp Hoff. pose proof (bytes_used_range rb Hv) as Hu.
  destruct (findchr_rec_first rb c (Z.to_nat (ringbuf_bytes_used rb)) offset)
    as (r & Hr & Hfirst); [done | done | done | lia |].
  unfold ringbuf_findchr. rewrite Hr. split.
  - do 2 f_equal. eapply first_at_unique; [exact Hfirst|].
    apply flat_findchr_first. lia.
  - intros Hge. do 2 f_equal. destruct Hfirst as (Hr1 & Hhit & _).
    rewrite length_contents in * by done.
    destruct (decide (r < ringbuf_bytes_used rb)); [|lia].
    destruct Hhit; lia.
Qed.

(** * Underflow, accounting and cursors *)

(** C3. Underflow. When [count] exceeds the bytes used of the source,
    [ringbuf_memcpy_from] and [ringbuf_copy] return the null pointer and
    hand back the destination and the buffers as they were: cursors and
    storage unchanged, nothing copied. The same holds of [ringbuf_copy]
    from a buffer to itself. *)
Theorem underflow_no_mutation (dst : list Z) (d src : ringbuf_t) (count : Z) :
  count > ringbuf_bytes_used src ->
  ringbuf_memcpy_from dst src count = Ok (None, dst, src) /\
  ringbuf_copy d src count = Ok (None, d, src) /\
  ringbuf_copy_self src count = Ok (None, src).
Proof.
  intros Hc. unfold ringbuf_memcpy_from, ringbuf_copy, ringbuf_copy_self.
  destruct (Z.gtb_spec count (ringbuf_bytes_used src)); [done | lia].
Qed.

(** C4. Occupancy accounting. Every reachable buffer has
    [bytes_used + bytes_free = capacity] and
    [0 <= bytes_used <= capacity]. *)
Theorem occupancy_invariant (rb : ringbuf_t) :
  reachable rb ->
  ringbuf_bytes_used rb + ringbuf_bytes_free rb = ringbuf_capacity rb /\
  0 <= ringbuf_bytes_used rb <= ringbuf_capacity rb.
Proof.
  intros Hv%reachable_valid.
  rewrite capacity_valid, bytes_used_valid, bytes_free_valid by done.
  destruct Hv. case_decide; lia.
Qed.

(** C5. The free-byte formula. With valid cursors,
    [ringbuf_bytes_free] is [capacity - (head - tail)] when
    [head >= tail] and [tail - head - 1] otherwise, as plain integers, and
    [ringbuf_bytes_used] is [capacity] minus that. *)
Theorem bytes_free_formula (rb : ringbuf_t) :
  valid rb ->
  ringbuf_bytes_free rb =
    (if decide (head rb >= tail rb)
     then ringbuf_capacity rb - (head rb - tail rb)
     else tail rb - head rb - 1) /\
  ringbuf_bytes_used rb = ringbuf_capacity rb - ringbuf_bytes_free rb.
Proof.
  intros Hv.
  rewrite capacity_valid, bytes_used_valid, bytes_free_valid by done.
  destruct Hv. repeat case_decide; lia.
Qed.

(** X14. Cursor validity below the largest capacity. In every buffer
    constructed with a capacity below [SIZE_MAX], so that
    [size = capacity + 1] does not wrap around, and in every buffer the
    operations make of it, [head] and [tail] are offsets within
    [0, size); the buffer is empty exactly when [head = tail]; it is full
    exactly when [bytes_free = 0], which is exactly when the slot after
    [head] is [tail]. *)
Theorem cursor_invariant (rb : ringbuf_t) :
  reachable rb ->
  (0 <= head rb < size rb /\ 0 <= tail rb < size rb) /\
  (ringbuf_is_empty rb = true <-> head rb = tail rb) /\
  (ringbuf_is_full rb = true <-> ringbuf_bytes_free rb = 0) /\
  (ringbuf_bytes_free rb = 0 <-> ringbuf_nextp rb (head rb) = Ok (tail rb)).
Proof.
  intros Hv%reachable_valid. pose proof Hv as [].
  split; [done|]. split; [|split].
  - unfold ringbuf_is_empty. rewrite Z.eqb_eq.
    rewrite capacity_valid, bytes_free_valid by done. case_decide; lia.
  - unfold ringbuf_is_full. apply Z.eqb_eq.
  - rewrite nextp_valid, bytes_free_valid by (done || lia). split.
    + intros. f_equal. repeat case_decide; lia.
    + intros [=]. repeat case_decide; lia.
Qed.

(** C10. [ringbuf_new_static] with a null [buf] and
    [buf_size = capacity + 1] returns the null handle for every capacity;
    when the metadata block was allocated, the heap it leaves is the one
    where that block has been released. *)
Theorem new_static_null {heap : Type}
    (malloc_fun : Z -> heap -> option (positive * list Z) * heap)
    (free_fun : positive -> heap -> heap) (capacity : Z) (h : heap) :
  ringbuf_new_static malloc_fun free_fun capacity None
      (size_t (capacity + 1)) h =
    Ok (None,
        match malloc_fun sizeof_ringbuf_t h with
        | (Some (rb, _), h') => free_fun rb h'
        | (None, h') => h'
        end).
Proof.
  unfold ringbuf_new_static. rewrite assert_true by apply Z.eqb_refl.
  simpl. by destruct (malloc_fun sizeof_ringbuf_t h) as [[[rb bytes]|] h'].
Qed.

(** * Ring to ring *)

(** Case analysis on an integer known to lie in a short range. *)
Ltac enum_range x lo n :=
  lazymatch n with
  | O => exfalso; lia
  | S ?n' =>
      let H := fresh in
      destruct (decide (x = lo)) as [H|H];
      [subst x | enum_range x (lo + 1) n']
  end.

(** C9. Ring-to-ring copy with destination overflow. Let [A] be a
    well-formed buffer of capacity 4 whose unread bytes are "XYZW" and [B]
    an empty well-formed buffer of capacity 2, wherever their cursors
    stand. [ringbuf_copy] of 3 bytes from [A] to [B] succeeds; [B] ends
    full with 2 bytes used and contents "YZ", one of the 3 bytes
    evicted; the tail of [A] has advanced by 3 slots, wrapping, and
    [A] keeps "W". *)
Theorem copy_overflow_scenario (A B : ringbuf_t) :
  valid A -> ringbuf_capacity A = 4 ->
  contents A = bytes_of_string "XYZW" ->
  valid B -> ringbuf_capacity B = 2 -> ringbuf_is_empty B = true ->
  exists h B' A',
    ringbuf_copy B A 3 = Ok (Some h, B', A') /\
    ringbuf_bytes_used B' = 2 /\
    ringbuf_is_full B' = true /\
    contents B' = bytes_of_string "YZ" /\
    tail A' = (tail A + 3) mod size A /\
    contents A' = bytes_of_string "W".
Proof.
  intros HvA HcA HA HvB HcB HeB.
  pose proof (length_contents A HvA) as HuA. rewrite HA in HuA.
  change (Z.of_nat (length (bytes_of_string "XYZW"))) with 4 in HuA.
  rewrite bytes_used_valid in HuA by done.
  unfold ringbuf_is_empty in HeB. apply Z.eqb_eq in HeB.
  rewrite bytes_free_valid, !capacity_valid in * by done.
  destruct A as [bA hA tA sA], B as [bB hB tB sB].
  destruct HvA as [_ HlA HhA HtA], HvB as [_ HlB HhB HtB].
  cbn [buf head tail size] in *.
  assert (sA = 5) as -> by lia. assert (sB = 3) as -> by lia.
  assert (hB = tB) as -> by (repeat case_decide; lia).
  do 5 (destruct bA as [|? bA]; [simpl in HlA; lia|]).
  destruct bA; [|simpl in HlA; lia].
  do 3 (destruct bB as [|? bB]; [simpl in HlB; lia|]).
  destruct bB; [|simpl in HlB; lia].
  clear HlA HlB.
  enum_range tA 0 5%nat; enum_range hA 0 5%nat;
    try (exfalso; clear -HuA; repeat case_decide; lia);
    vm_compute in HA; injection HA as -> -> -> ->;
    enum_range tB 0 3%nat;
    (do 3 eexists; split; [vm_compute; reflexivity|];
     split; [vm_compute; reflexivity|];
     split; [vm_compute; reflexivity|];
     split; [vm_compute; reflexivity|];
     split; vm_compute; reflexivity).
Qed.

(** * The theorems at concrete buffers *)

Ltac solve_valid := split; cbn; unfold SIZE_MAX; lia.

(** [rb_wrapped] is what a fill, a read and a write leave of a fresh
    buffer. *)
Ltac solve_reachable_wrapped :=
  apply (reach_memcpy_into
           (mk_ringbuf [65; 65; 65; 0; 0] 3 3 5) [1; 2; 3; 4] 4 2 rb_wrapped);
  [ apply (reach_memcpy_from
             (mk_ringbuf [65; 65; 65; 0; 0] 3 0 5) [0; 0; 0] 3
             (Some 3) [65; 65; 65]);
    [ apply (reach_memset (fresh 4 (replicate 5 0)) 65 3 3);
      [ apply reach_fresh; [unfold SIZE_MAX; lia | reflexivity]
      | unfold SIZE_MAX; lia
      | vm_compute; reflexivity ]
    | unfold SIZE_MAX; lia
    | vm_compute; reflexivity ]
  | unfold SIZE_MAX; lia
  | vm_compute; reflexivity ].

Lemma roundtrip_fifo_witness :
  valid rb_empty3 /\
  exists h rb1 t dst' rb2,
    ringbuf_memcpy_into rb_empty3 (bytes_of_string "ABCD") 4 = Ok (h, rb1) /\
    ringbuf_memcpy_from [0; 0; 0; 0; 9] rb1 4 = Ok (Some t, dst', rb2) /\
    take 4 dst' = bytes_of_string "ABCD" /\
    drop 4 dst' = [9] /\
    head rb2 = tail rb2 /\
    ringbuf_bytes_used rb2 = 0 /\
    ringbuf_is_empty rb2 = true.
Proof.
  split; [solve_valid|].
  apply (roundtrip_fifo rb_empty3 (bytes_of_string "ABCD") [0; 0; 0; 0; 9]).
  - solve_valid.
  - reflexivity.
  - vm_compute. discriminate.
  - vm_compute. lia.
Defined.

Lemma overflow_eviction_witness :
  valid rb_AB /\
  (exists h rb',
     ringbuf_memcpy_into rb_AB (bytes_of_string "CDE") 3 = Ok (h, rb') /\
     contents rb' =
       drop 1 (contents rb_AB ++ take 3 (bytes_of_string "CDE")) /\
     (3 >= ringbuf_bytes_free rb_AB -> ringbuf_is_full rb' = true)) /\
  (exists rb',
     ringbuf_memset rb_AB 70 3 = Ok (3, rb') /\
     contents rb' = drop 1 (contents rb_AB ++ replicate 3 (uchar 70)) /\
     (3 >= ringbuf_bytes_free rb_AB -> ringbuf_is_full rb' = true)) /\
  (exists h1 rb1 h2 rb2,
     ringbuf_memcpy_into (fresh 4 [0; 0; 0; 0; 0]) (bytes_of_string "AB") 2
       = Ok (h1, rb1) /\
     ringbuf_bytes_used rb1 = 2 /\ ringbuf_bytes_free rb1 = 2 /\
     ringbuf_memcpy_into rb1 (bytes_of_string "CDE") 3 = Ok (h2, rb2) /\
     ringbuf_bytes_used rb2 = 4 /\ ringbuf_is_full rb2 = true /\
     contents rb2 = bytes_of_string "BCDE").
Proof.
  split; [solve_valid|].
  apply (overflow_eviction rb_AB (bytes_of_string "CDE") [0; 0; 0; 0; 0] 3 70).
  - solve_valid.
  - cbn. lia.
  - vm_compute. discriminate.
  - reflexivity.
Defined.

Lemma underflow_no_mutation_witness :
  3 > ringbuf_bytes_used rb_AB /\
  ringbuf_memcpy_from [0; 0; 0] rb_AB 3 = Ok (None, [0; 0; 0], rb_AB) /\
  ringbuf_copy rb_empty1 rb_AB 3 = Ok (None, rb_empty1, rb_AB) /\
  ringbuf_copy_self rb_AB 3 = Ok (None, rb_AB).
Proof.
  split; [reflexivity|].
  apply (underflow_no_mutation [0; 0; 0] rb_empty1 rb_AB 3). reflexivity.
Defined.

Lemma occupancy_invariant_witness :
  reachable rb_wrapped /\
  ringbuf_bytes_used rb_wrapped + ringbuf_bytes_free rb_wrapped
    = ringbuf_capacity rb_wrapped /\
  0 <= ringbuf_bytes_used rb_wrapped <= ringbuf_capacity rb_wrapped.
Proof.
  split; [solve_reachable_wrapped|].
  apply (occupancy_invariant rb_wrapped). solve_reachable_wrapped.
Defined.

Lemma bytes_free_formula_witness :
  valid rb_wrapped /\
  ringbuf_bytes_free rb_wrapped =
    (if decide (head rb_wrapped >= tail rb_wrapped)
     then ringbuf_capacity rb_wrapped - (head rb_wrapped - tail rb_wrapped)
     else tail rb_wrapped - head rb_wrapped - 1) /\
  ringbuf_bytes_used rb_wrapped =
    ringbuf_capacity rb_wrapped - ringbuf_bytes_free rb_wrapped.
Proof.
  split; [solve_valid|].
  apply (bytes_free_formula rb_wrapped). solve_valid.
Defined.

Lemma findchr_flat_witness :
  valid rb_wrapped /\
  ringbuf_findchr rb_wrapped 3 1 =
    Ok (flat_findchr (contents rb_wrapped) 3 1, rb_wrapped) /\
  (1 >= ringbuf_bytes_used rb_wrapped ->
   ringbuf_findchr rb_wrapped 3 1 = Ok (ringbuf_bytes_used rb_wrapped, rb_wrapped)).
Proof.
  split; [solve_valid|].
  apply (findchr_flat rb_wrapped 3 1).
  - solve_valid.
  - cbn. unfold PTRDIFF_MAX. lia.
  - unfold SIZE_MAX. lia.
Defined.

Lemma memset_fill_witness :
  valid rb_wrapped /\
  exists rb',
    ringbuf_memset rb_wrapped 70 100 = Ok (5, rb') /\
    head rb' = (head rb_wrapped + 5) mod size rb_wrapped /\
    size rb' = size rb_wrapped /\
    length (buf rb') = length (buf rb_wrapped) /\
    (forall k, 0 <= k < 5 ->
       buf rb' !! Z.to_nat ((head rb_wrapped + k) mod size rb_wrapped)
         = Some (uchar 70)) /\
    (forall i : nat,
       (forall k, 0 <= k < 5 ->
          Z.of_nat i <> (head rb_wrapped + k) mod size rb_wrapped) ->
       buf rb' !! i = buf rb_wrapped !! i).
Proof.
  split; [solve_valid|].
  apply (memset_fill rb_wrapped 70 100).
  - solve_valid.
  - unfold SIZE_MAX. lia.
Defined.

Lemma cursor_invariant_witness :
  reachable rb_wrapped /\
  (0 <= head rb_wrapped < size rb_wrapped /\
   0 <= tail rb_wrapped < size rb_wrapped) /\
  (ringbuf_is_empty rb_wrapped = true <-> head rb_wrapped = tail rb_wrapped) /\
  (ringbuf_is_full rb_wrapped = true <-> ringbuf_bytes_free rb_wrapped = 0) /\
  (ringbuf_bytes_free rb_wrapped = 0 <->
   ringbuf_nextp rb_wrapped (head rb_wrapped) = Ok (tail rb_wrapped)).
Proof.
  split; [solve_reachable_wrapped|].
  apply (cursor_invariant rb_wrapped). solve_reachable_wrapped.
Defined.

Lemma copy_overflow_scenario_witness :
  valid rb_XYZW /\ contents rb_XYZW = bytes_of_string "XYZW" /\
  valid rb_empty1 /\
  exists h B' A',
    ringbuf_copy rb_empty1 rb_XYZW 3 = Ok (Some h, B', A') /\
    ringbuf_bytes_used B' = 2 /\
    ringbuf_is_full B' = true /\
    contents B' = bytes_of_string "YZ" /\
    tail A' = (tail rb_XYZW + 3) mod size rb_XYZW /\
    contents A' = bytes_of_string "W".
Proof.
  split; [solve_valid|]. split; [reflexivity|]. split; [solve_valid|].
  apply (copy_overflow_scenario rb_XYZW rb_empty1).
  - solve_valid.
  - reflexivity.
  - reflexivity.
  - solve_valid.
  - reflexivity.
  - reflexivity.
Defined.

(** * Writes of any length *)

Lemma put_bytes_app sz b h data1 data2 :
  put_bytes sz b h (data1 ++ data2) =
    put_bytes sz (put_bytes sz b h data1).1 (put_bytes sz b h data1).2 data2.
Proof. revert b h. induction data1 as [|x data1 IH]; intros; simpl; auto. Qed.

(** A run of bytes that ends at or before the end of the storage goes in
    as one segment. *)
Lemma put_bytes_segment sz : forall chunk b h,
  0 <= h < sz -> h + Z.of_nat (length chunk) <= sz ->
  put_bytes sz b h chunk =
    (list_inserts (Z.to_nat h) chunk b,
     if decide (h + Z.of_nat (length chunk) = sz) then 0
     else h + Z.of_nat (length chunk)).
Proof.
  induction chunk as [|x chunk IH]; intros b h Hh Hlen; simpl in *.
  - f_equal. case_decide; lia.
  - unfold next_slot. case_decide as Hw.
    + destruct chunk; [|simpl in *; lia]. simpl.
      f_equal. case_decide; lia.
    + rewrite IH by lia. f_equal.
      * replace (Z.to_nat (h + 1)) with (S (Z.to_nat h)) by lia.
        symmetry. apply list_insert_inserts_lt. lia.
      * repeat case_decide; lia.
Qed.

Lemma take_add_app (l : list Z) (n k : nat) :
  take (n + k) l = take n l ++ take k (drop n l).
Proof.
  revert l. induction n as [|n IH]; intros [|x l]; simpl;
    rewrite ?take_nil; try done.
  by rewrite IH.
Qed.

Lemma bytes_at_split (l : list Z) off n m :
  0 <= off -> 0 <= n <= m ->
  bytes_at l off m = bytes_at l off n ++ bytes_at l (off + n) (m - n).
Proof.
  intros Hoff Hn. unfold bytes_at.
  replace (Z.to_nat m) with (Z.to_nat n + Z.to_nat (m - n))%nat by lia.
  rewrite take_add_app, drop_drop. do 3 f_equal. lia.
Qed.

(** The loop of [ringbuf_memcpy_into] stores its bytes as [put_bytes]
    does, whatever their number. *)
Lemma memcpy_into_loop_put fuel : forall dst src count nread,
  valid dst -> 0 <= nread <= count -> count <= SIZE_MAX ->
  count <= Z.of_nat (length src) ->
  count - nread <= Z.of_nat fuel ->
  memcpy_into_loop fuel dst src count nread =
    let r := put_bytes (size dst) (buf dst) (head dst)
               (bytes_at src nread (count - nread)) in
    Ok {| buf := r.1; head := r.2; tail := tail dst; size := size dst |}.
Proof.
  induction fuel as [|fuel IH]; intros dst src count nread Hv Hn Hc Hl Hf;
    (destruct (decide (nread = count)) as [->|Hne];
     [rewrite memcpy_into_loop_done by done; rewrite Z.sub_diag;
      by destruct dst | try lia]).
  rewrite memcpy_into_loop_step by (done || lia). pose proof Hv as [].
  cbv zeta. set (n := Z.min (size dst - head dst) (count - nread)).
  rewrite IH; [| split; simpl; rewrite ?length_inserts; try lia;
                 case_decide; lia | lia..].
  cbn [buf head tail size].
  rewrite (bytes_at_split src nread n (count - nread)) by lia.
  rewrite put_bytes_app.
  assert (Z.of_nat (length (bytes_at src nread n)) = n) as Hlen
    by (rewrite length_bytes_at; lia).
  rewrite (put_bytes_segment (size dst) (bytes_at src nread n)) by lia.
  cbn [fst snd]. rewrite Hlen.
  replace (count - (nread + n)) with (count - nread - n) by lia.
  reflexivity.
Qed.

(** After [put_bytes], the byte written [k] places before the last one
    sits [k] slots before the slot just before the cursor, for [k] less
    than the number of slots; the other slots hold what they held. *)
Lemma put_bytes_lookup sz data : forall b h,
  Z.of_nat (length b) = sz -> 0 <= h < sz ->
  let r := put_bytes sz b h data in
  Z.of_nat (length r.1) = sz /\ 0 <= r.2 < sz /\
  forall i : nat, Z.of_nat i < sz ->
    r.1 !! i =
      if decide (back_from sz r.2 (Z.of_nat i) < Z.of_nat (length data))
      then data !! Z.to_nat (Z.of_nat (length data) - 1
                             - back_from sz r.2 (Z.of_nat i))
      else b !! i.
Proof.
  induction data as [|x data IH] using rev_ind; intros b h Hb Hh; simpl.
  - split_and!; try lia. intros i Hi. unfold back_from.
    repeat case_decide; try lia; done.
  - rewrite put_bytes_app. destruct (IH b h Hb Hh) as (Hlen & Hh1 & Hget).
    destruct (put_bytes sz b h data) as [b1 h1]. simpl in *.
    rewrite length_insert, length_app. unfold next_slot. simpl.
    split_and!; [done | case_decide; lia | case_decide; lia |].
    intros i Hi. destruct (decide (i = Z.to_nat h1)) as [->|Hne].
    + rewrite list_lookup_insert_eq by lia. unfold back_from.
      rewrite decide_True by (repeat case_decide; lia).
      symmetry. rewrite lookup_app_r by (repeat case_decide; lia).
      replace (_ - _)%nat with 0%nat by (repeat case_decide; lia). done.
    + rewrite list_lookup_insert_ne by lia. rewrite Hget by done.
      unfold back_from.
      repeat case_decide; try lia; try done;
        rewrite lookup_app_l by lia; f_equal; lia.
Qed.

Lemma put_bytes_head sz data : forall b h,
  0 <= h < sz ->
  (put_bytes sz b h data).2 = (h + Z.of_nat (length data)) mod sz.
Proof.
  induction data as [|x data IH] using rev_ind; intros b h Hh; simpl.
  - rewrite Z.add_0_r. symmetry. apply Z.mod_small. lia.
  - rewrite put_bytes_app. simpl. rewrite IH by done.
    rewrite length_app. simpl.
    pose proof (Z.mod_pos_bound (h + Z.of_nat (length data)) sz ltac:(lia)).
    replace (h + Z.of_nat (length data + 1))
      with (h + Z.of_nat (length data) + 1) by lia.
    rewrite <- (Zplus_mod_idemp_l (h + Z.of_nat (length data))).
    unfold next_slot. case_decide as Hw.
    + rewrite Hw. symmetry. apply Z.mod_same. lia.
    + symmetry. apply Z.mod_small. lia.
Qed.

(** [ringbuf_memcpy_into] for any [count]: it succeeds, and the unread
    bytes afterwards are the most recent ones. *)
Lemma memcpy_into_any dst src count :
  valid dst -> 0 <= count <= SIZE_MAX -> count <= Z.of_nat (length src) ->
  exists rb',
    ringbuf_memcpy_into dst src count = Ok (head rb', rb') /\
    valid rb' /\ size rb' = size dst /\
    head rb' = (head dst + count) mod size dst /\
    contents rb' =
      drop (Z.to_nat (Z.max 0 (count - ringbuf_bytes_free dst)))
        (contents dst ++ take (Z.to_nat count) src) /\
    (ringbuf_bytes_free dst <= count -> ringbuf_is_full rb' = true).
Proof.
  intros Hv Hc Hl. pose proof Hv as [].
  pose proof (bytes_free_range dst Hv) as Hfree.
  destruct (decide (count <= size dst)) as [Hle|Hgt].
  { exists (written dst src count). split_and!.
    - apply memcpy_into_spec; done || lia.
    - apply valid_written; done || lia.
    - done.
    - unfold written. cbn [head]. apply wrap_mod; lia.
    - apply contents_written; done || lia.
    - intros. apply is_full_written; done || lia. }
  unfold ringbuf_memcpy_into.
  rewrite memcpy_into_loop_put by (done || lia). cbv zeta.
  rewrite Z.sub_0_r.
  assert (Z.of_nat (length (bytes_at src 0 count)) = count) as Hdata
    by (rewrite length_bytes_at; lia).
  pose proof (put_bytes_lookup (size dst) (bytes_at src 0 count)
                (buf dst) (head dst) valid_buf0 valid_head0) as (Hlen & Hh & Hget).
  pose proof (put_bytes_head (size dst) (bytes_at src 0 count)
                (buf dst) (head dst) valid_head0) as Hhead.
  cbv zeta in Hlen, Hh, Hget. rewrite Hdata in Hget, Hhead.
  destruct (put_bytes (size dst) (buf dst) (head dst) (bytes_at src 0 count))
    as [b' h'].
  cbn [fst snd] in *. simpl.
  assert (valid (mk_ringbuf b' h' (tail dst) (size dst))) as Hv1
    by (split; simpl; lia).
  rewrite evict_spec by done.
  destruct (Z.gtb_spec count (ringbuf_bytes_free dst)); [|lia]. simpl.
  exists (set_tail (mk_ringbuf b' h' (tail dst) (size dst))
            (wrap (size dst) h' 1)).
  split; [reflexivity|].
  assert (valid (set_tail (mk_ringbuf b' h' (tail dst) (size dst))
                   (wrap (size dst) h' 1))) as Hv2
    by (unfold wrap; split; simpl; try lia; case_decide; lia).
  split_and!; try done.
  - apply list_eq. intros j.
    pose proof (length_contents dst Hv) as Hlc.
    rewrite lookup_drop, lookup_app_decide, lookup_take, !lookup_contents
      by done.
    assert (ringbuf_bytes_used
              (set_tail (mk_ringbuf b' h' (tail dst) (size dst))
                 (wrap (size dst) h' 1)) = size dst - 1) as ->
      by (rewrite bytes_used_valid by done; simpl; unfold wrap;
          repeat case_decide; lia).
    rewrite bytes_used_valid in * by done.
    rewrite bytes_free_valid in * by done. simpl.
    destruct (decide (Z.of_nat j < size dst - 1)) as [Hj|Hj].
    + rewrite Hget by (unfold wrap; repeat case_decide; lia).
      rewrite lookup_bytes_at. unfold wrap, back_from in *.
      repeat case_decide; try lia; try done; f_equal; lia.
    + repeat case_decide; try lia; done.
  - intros _. unfold ringbuf_is_full. apply Z.eqb_eq.
    rewrite bytes_free_valid by done. simpl. unfold wrap.
    repeat case_decide; lia.
Qed.

(** * Reads in terms of the unread bytes *)

Lemma valid_set_tail_wrap src count :
  valid src -> 0 <= count <= ringbuf_bytes_used src ->
  valid (set_tail src (wrap (size src) (tail src) count)).
Proof.
  intros Hv Hc. pose proof (bytes_used_range src Hv). destruct Hv.
  unfold wrap. split; simpl; try lia. case_decide; lia.
Qed.

Lemma bytes_used_set_tail_wrap src count :
  valid src -> 0 <= count <= ringbuf_bytes_used src ->
  ringbuf_bytes_used (set_tail src (wrap (size src) (tail src) count)) =
    ringbuf_bytes_used src - count.
Proof.
  intros Hv Hc. pose proof (valid_set_tail_wrap src count Hv Hc) as Hv'.
  rewrite (bytes_used_valid (set_tail _ _)) by done.
  rewrite bytes_used_valid in * by done. destruct Hv. simpl. unfold wrap.
  repeat case_decide; lia.
Qed.

Lemma contents_set_tail_wrap src count :
  valid src -> 0 <= count <= ringbuf_bytes_used src ->
  contents (set_tail src (wrap (size src) (tail src) count)) =
    drop (Z.to_nat count) (contents src).
Proof.
  intros Hv Hc. pose proof (valid_set_tail_wrap src count Hv Hc) as Hv'.
  pose proof (bytes_used_range src Hv) as Hu.
  apply list_eq. intros j.
  rewrite lookup_drop, !lookup_contents by done.
  rewrite bytes_used_set_tail_wrap by done. destruct Hv. simpl.
  unfold wrap. repeat case_decide; try lia; try done; f_equal; lia.
Qed.

Lemma read_into_contents dst src count :
  valid src -> 0 <= count <= ringbuf_bytes_used src ->
  count <= Z.of_nat (length dst) ->
  read_into dst src count =
    take (Z.to_nat count) (contents src) ++ drop (Z.to_nat count) dst.
Proof.
  intros Hv Hc Hl. pose proof (bytes_used_range src Hv) as Hu.
  pose proof (length_contents src Hv) as Hlc.
  apply list_eq. intros i. unfold read_into.
  rewrite (lookup_read _ _ (size src)) by (apply Hv || lia).
  rewrite lookup_app_decide, length_take, lookup_take, lookup_drop,
    lookup_contents by done.
  repeat case_decide; try lia; try done; f_equal; lia.
Qed.

(** [ringbuf_memcpy_from] of [count <= bytes_used] bytes. *)
Lemma memcpy_from_contents dst src count :
  valid src -> 0 <= count <= ringbuf_bytes_used src ->
  count <= Z.of_nat (length dst) ->
  let t := wrap (size src) (tail src) count in
  ringbuf_memcpy_from dst src count =
    Ok (Some t,
        take (Z.to_nat count) (contents src) ++ drop (Z.to_nat count) dst,
        set_tail src t).
Proof.
  intros Hv Hc Hl t. rewrite memcpy_from_spec by done.
  by rewrite read_into_contents.
Qed.

(** X1. Reading consumes the oldest bytes. For a well-formed buffer and
    [count <= bytes_used], [ringbuf_memcpy_from] returns the new [tail],
    which is the old one advanced by [count] modulo [size]; the first
    [count] bytes of the destination become the [count] oldest unread
    bytes in order and the rest of the destination is untouched; the
    buffer keeps its storage, [head] and [size], is well formed, and its
    unread bytes are the former ones without those [count]. *)
Theorem read_consumes_oldest (dst : list Z) (src : ringbuf_t) (count : Z) :
  valid src -> 0 <= count <= ringbuf_bytes_used src ->
  count <= Z.of_nat (length dst) ->
  exists src',
    ringbuf_memcpy_from dst src count =
      Ok (Some (tail src'),
          take (Z.to_nat count) (contents src) ++ drop (Z.to_nat count) dst,
          src') /\
    tail src' = (tail src + count) mod size src /\
    buf src' = buf src /\ head src' = head src /\ size src' = size src /\
    valid src' /\
    contents src' = drop (Z.to_nat count) (contents src) /\
    ringbuf_bytes_used src' = ringbuf_bytes_used src - count.
Proof.
  intros Hv Hc Hl. pose proof (bytes_used_range src Hv).
  exists (set_tail src (wrap (size src) (tail src) count)). split_and!.
  - by apply memcpy_from_contents.
  - apply wrap_mod; [apply Hv | lia].
  - done.
  - done.
  - done.
  - by apply valid_set_tail_wrap.
  - by apply contents_set_tail_wrap.
  - by apply bytes_used_set_tail_wrap.
Qed.

(** X2. Writing any number of bytes keeps the most recent ones. For a
    well-formed buffer and any [count] of type [size_t], also beyond
    [size], [ringbuf_memcpy_into] succeeds and returns the new [head], the
    old one advanced by [count] modulo [size]; the unread bytes afterwards
    are those unread before followed by the bytes written, without the
    oldest [max 0 (count - bytes_free)] of them; [bytes_used] becomes
    [min capacity (bytes_used + count)], and the buffer is full when
    [count >= bytes_free]. *)
Theorem write_keeps_most_recent (dst : ringbuf_t) (src : list Z) (count : Z) :
  valid dst -> 0 <= count <= SIZE_MAX -> count <= Z.of_nat (length src) ->
  exists rb',
    ringbuf_memcpy_into dst src count = Ok (head rb', rb') /\
    valid rb' /\ size rb' = size dst /\
    head rb' = (head dst + count) mod size dst /\
    contents rb' =
      drop (Z.to_nat (Z.max 0 (count - ringbuf_bytes_free dst)))
        (contents dst ++ take (Z.to_nat count) src) /\
    ringbuf_bytes_used rb' =
      Z.min (ringbuf_capacity dst) (ringbuf_bytes_used dst + count) /\
    (count >= ringbuf_bytes_free dst -> ringbuf_is_full rb' = true).
Proof.
  intros Hv Hc Hl.
  destruct (memcpy_into_any dst src count Hv Hc Hl)
    as (rb' & Hrun & Hv' & Hsz & Hh & Hcont & Hfull).
  exists rb'. split_and!; try done.
  - rewrite <- (length_contents rb') by done. rewrite Hcont.
    rewrite length_drop, length_app, length_take.
    pose proof (length_contents dst Hv).
    rewrite capacity_valid by done.
    pose proof (bytes_used_range dst Hv).
    rewrite (bytes_free_valid dst) by done.
    rewrite (bytes_used_valid dst) in * by done.
    destruct Hv. repeat case_decide; lia.
  - intros. apply Hfull. lia.
Qed.

(** * Ring to ring, in general *)

Lemma copy_loop_done fuel dst src count ncopied :
  ncopied = count -> copy_loop fuel dst src count ncopied = Ok (dst, src).
Proof. intros ->. destruct fuel; simpl; by rewrite Z.eqb_refl. Qed.

Lemma copy_loop_step fuel dst src count ncopied :
  valid dst -> valid src -> 0 <= ncopied < count -> count <= SIZE_MAX ->
  copy_loop (S fuel) dst src count ncopied =
    let n := Z.min (size dst - head dst)
               (Z.min (size src - tail src) (count - ncopied)) in
    copy_loop fuel
      {| buf := list_inserts (Z.to_nat (head dst))
                  (bytes_at (buf src) (tail src) n) (buf dst);
         head := if decide (head dst + n = size dst) then 0 else head dst + n;
         tail := tail dst;
         size := size dst |}
      (set_tail src (if decide (tail src + n = size src) then 0
                     else tail src + n))
      count (ncopied + n).
Proof.
  intros [] [] Hn Hc. simpl.
  destruct (Z.eqb_spec ncopied count) as [|Hne]; [lia|].
  unfold ringbuf_end, ringbuf_buffer_size.
  rewrite !assert_true by (apply Z.gtb_lt; lia). simpl.
  rewrite !MIN_spec, (size_t_small (count - ncopied)) by lia.
  rewrite memcpy_in_bounds by lia. simpl.
  rewrite size_t_small by lia.
  set (n := Z.min (size dst - head dst)
              (Z.min (size src - tail src) (count - ncopied))).
  destruct (Z.eqb_spec (tail src + n) (size src));
    destruct (Z.eqb_spec (head dst + n) (size dst));
    repeat case_decide; try lia; reflexivity.
Qed.

Lemma bytes_at_tail_contents src n :
  valid src -> 0 <= n -> n <= size src - tail src ->
  n <= ringbuf_bytes_used src ->
  bytes_at (buf src) (tail src) n = take (Z.to_nat n) (contents src).
Proof.
  intros Hv Hn Hend Hu. pose proof Hv as [].
  apply list_eq. intros i.
  rewrite lookup_bytes_at, lookup_take, lookup_contents by done.
  unfold wrap. repeat case_decide; try lia; try done; f_equal; lia.
Qed.

(** The loop of [ringbuf_copy] stores in [dst], as [put_bytes] does, the
    oldest unread bytes of [src], and advances the tail of [src]. *)
Lemma copy_loop_put fuel : forall dst src count ncopied,
  valid dst -> valid src -> 0 <= ncopied <= count -> count <= SIZE_MAX ->
  count - ncopied <= ringbuf_bytes_used src ->
  count - ncopied <= Z.of_nat fuel ->
  copy_loop fuel dst src count ncopied =
    let m := count - ncopied in
    let r := put_bytes (size dst) (buf dst) (head dst)
               (take (Z.to_nat m) (contents src)) in
    Ok ({| buf := r.1; head := r.2; tail := tail dst; size := size dst |},
        set_tail src (wrap (size src) (tail src) m)).
Proof.
  induction fuel as [|fuel IH];
    intros dst src count ncopied Hd Hs Hn Hc Hu Hf;
    (destruct (decide (ncopied = count)) as [->|Hne];
     [rewrite copy_loop_done by done; rewrite Z.sub_diag; cbv zeta;
      unfold wrap; rewrite decide_True by (destruct Hs; lia);
      rewrite Z.add_0_r; by destruct dst, src | try lia]).
  rewrite copy_loop_step by (done || lia).
  pose proof Hd as []. pose proof Hs as [].
  pose proof (bytes_used_range src Hs) as Hur.
  cbv zeta.
  set (n := Z.min (size dst - head dst)
              (Z.min (size src - tail src) (count - ncopied))).
  set (m := count - ncopied).
  replace (if decide (tail src + n = size src) then 0 else tail src + n)
    with (wrap (size src) (tail src) n)
    by (unfold wrap; repeat case_decide; lia).
  assert (valid (set_tail src (wrap (size src) (tail src) n))) as Hs1
    by (apply valid_set_tail_wrap; done || lia).
  rewrite IH; [| split; simpl; rewrite ?length_inserts; try lia;
                 case_decide; lia | done | lia | lia
               | rewrite bytes_used_set_tail_wrap by (done || lia); lia
               | lia].
  cbn [buf head tail size set_tail].
  replace (count - (ncopied + n)) with (m - n) by lia.
  rewrite contents_set_tail_wrap by (done || lia).
  replace (Z.to_nat m) with (Z.to_nat n + Z.to_nat (m - n))%nat by lia.
  rewrite take_add_app, put_bytes_app.
  rewrite <- bytes_at_tail_contents by (done || lia).
  assert (Z.of_nat (length (bytes_at (buf src) (tail src) n)) = n) as Hlen
    by (rewrite length_bytes_at; lia).
  rewrite (put_bytes_segment (size dst) (bytes_at (buf src) (tail src) n))
    by lia.
  cbn [fst snd]. rewrite Hlen.
  do 2 f_equal. unfold set_tail. simpl. f_equal. unfold wrap.
  repeat case_decide; lia.
Qed.

(** [ringbuf_copy] writes into [dst] what [ringbuf_memcpy_into] writes
    from the oldest [count] unread bytes of [src]. *)
Lemma copy_any dst src count :
  valid dst -> valid src -> 0 <= count <= ringbuf_bytes_used src ->
  ringbuf_copy dst src count =
    ('(h, dst') ← ringbuf_memcpy_into dst
                    (take (Z.to_nat count) (contents src)) count;
     Ok (Some h, dst', set_tail src (wrap (size src) (tail src) count))).
Proof.
  intros Hd Hs Hc. pose proof (bytes_used_range src Hs) as Hu.
  pose proof (length_contents src Hs) as Hlc.
  assert (count <= SIZE_MAX) by (destruct Hs; lia).
  assert (Z.of_nat (length (take (Z.to_nat count) (contents src))) = count)
    as Hlen by (rewrite length_take; lia).
  unfold ringbuf_copy, ringbuf_memcpy_into.
  destruct (Z.gtb_spec count (ringbuf_bytes_used src)); [lia|].
  rewrite copy_loop_put, memcpy_into_loop_put by (done || lia).
  cbv zeta. rewrite !Z.sub_0_r. simpl.
  replace (bytes_at (take (Z.to_nat count) (contents src)) 0 count)
    with (take (Z.to_nat count) (contents src))
    by (unfold bytes_at; change (Z.to_nat 0) with 0%nat;
        rewrite drop_0, take_take; f_equal; lia).
  rewrite assert_true.
  2:{ apply Z.eqb_eq. rewrite bytes_used_set_tail_wrap by (done || lia).
      pose proof (valid_size _ Hs). rewrite size_t_small; lia. }
  simpl. by destruct (evict _ _).
Qed.

(** X3. Copying ring to ring is reading then writing. For well-formed
    buffers and [count <= bytes_used src], whatever the sizes of the two
    buffers, [ringbuf_copy] succeeds and leaves both buffers as
    [ringbuf_memcpy_from] of [count] bytes from [src] into an intermediate
    area, followed by [ringbuf_memcpy_into] of that area into [dst], leave
    them; it returns the [head] the latter returns. *)
Theorem copy_is_read_then_write (dst src : ringbuf_t) (tmp : list Z)
    (count : Z) :
  valid dst -> valid src -> 0 <= count <= ringbuf_bytes_used src ->
  Z.of_nat (length tmp) = count ->
  exists t bytes src' h dst',
    ringbuf_memcpy_from tmp src count = Ok (Some t, bytes, src') /\
    ringbuf_memcpy_into dst bytes count = Ok (h, dst') /\
    ringbuf_copy dst src count = Ok (Some h, dst', src').
Proof.
  intros Hd Hs Hc Htmp. pose proof (bytes_used_range src Hs) as Hu.
  pose proof (length_contents src Hs) as Hlc.
  assert (count <= SIZE_MAX) by (destruct Hs; lia).
  destruct (memcpy_into_any dst (take (Z.to_nat count) (contents src)) count)
    as (dst' & Hinto & _); [done | lia | rewrite length_take; lia |].
  exists (wrap (size src) (tail src) count),
         (take (Z.to_nat count) (contents src)),
         (set_tail src (wrap (size src) (tail src) count)),
         (head dst'), dst'.
  split_and!.
  - rewrite memcpy_from_contents by (done || lia).
    rewrite drop_ge by lia. by rewrite app_nil_r.
  - done.
  - rewrite copy_any by done. by rewrite Hinto.
Qed.

(** X4. What a ring-to-ring copy moves. For well-formed buffers and
    [count <= bytes_used src], [ringbuf_copy] succeeds; the unread bytes
    of [dst] become its former ones followed by the [count] oldest unread
    bytes of [src], without the oldest [max 0 (count - bytes_free dst)] of
    that sequence; [dst] is full when [count >= bytes_free dst]; [src]
    keeps its storage and [head] and loses exactly those [count] bytes; both
    buffers stay well formed. *)
Theorem copy_moves_oldest (dst src : ringbuf_t) (count : Z) :
  valid dst -> valid src -> 0 <= count <= ringbuf_bytes_used src ->
  exists dst' src',
    ringbuf_copy dst src count = Ok (Some (head dst'), dst', src') /\
    valid dst' /\ valid src' /\
    contents dst' =
      drop (Z.to_nat (Z.max 0 (count - ringbuf_bytes_free dst)))
        (contents dst ++ take (Z.to_nat count) (contents src)) /\
    (count >= ringbuf_bytes_free dst -> ringbuf_is_full dst' = true) /\
    contents src' = drop (Z.to_nat count) (contents src) /\
    ringbuf_bytes_used src' = ringbuf_bytes_used src - count /\
    buf src' = buf src /\ head src' = head src.
Proof.
  intros Hd Hs Hc. pose proof (bytes_used_range src Hs) as Hu.
  pose proof (length_contents src Hs) as Hlc.
  assert (count <= SIZE_MAX) by (destruct Hs; lia).
  destruct (memcpy_into_any dst (take (Z.to_nat count) (contents src)) count)
    as (dst' & Hinto & Hv' & _ & _ & Hcont & Hfull);
    [done | lia | rewrite length_take; lia |].
  exists dst', (set_tail src (wrap (size src) (tail src) count)).
  split_and!; try done.
  - rewrite copy_any by done. by rewrite Hinto.
  - by apply valid_set_tail_wrap.
  - rewrite Hcont. by rewrite take_take, Nat.min_id.
  - intros. apply Hfull. lia.
  - by apply contents_set_tail_wrap.
  - by apply bytes_used_set_tail_wrap.
Qed.

(** * Construction and reset *)

Lemma fresh_empty capacity storage :
  0 <= capacity < SIZE_MAX ->
  Z.of_nat (length storage) = capacity + 1 ->
  let rb := fresh capacity storage in
  valid rb /\ ringbuf_capacity rb = capacity /\
  ringbuf_bytes_used rb = 0 /\ ringbuf_bytes_free rb = capacity /\
  ringbuf_is_empty rb = true /\ contents rb = [] /\ buf rb = storage.
Proof.
  intros Hc Hl rb. pose proof (valid_fresh capacity storage Hc Hl) as Hv.
  assert (size rb = capacity + 1) as Hsz
    by (unfold rb, fresh; simpl; apply size_t_small; lia).
  assert (ringbuf_bytes_used rb = 0) as Hu
    by (rewrite bytes_used_valid by done; unfold rb, fresh; simpl; lia).
  split_and!; try done.
  - rewrite capacity_valid by done. lia.
  - rewrite bytes_free_valid by done. unfold rb, fresh in *. simpl in *. lia.
  - unfold ringbuf_is_empty. apply Z.eqb_eq.
    rewrite capacity_valid, bytes_free_valid by done.
    unfold rb, fresh. simpl. lia.
  - apply length_zero_iff_nil.
    pose proof (length_contents rb Hv). fold rb in Hu. lia.
Qed.

(** X5. A buffer from [ringbuf_new] is empty and has the capacity asked
    for. With an allocator whose blocks have the size requested and a
    capacity below [SIZE_MAX], a non-null result of [ringbuf_new] is a
    well-formed buffer with that capacity, no byte used, all of the
    capacity free, and it is empty. *)
Theorem new_is_empty {heap : Type}
    (malloc_fun : Z -> heap -> option (positive * list Z) * heap)
    (free_fun : positive -> heap -> heap)
    (capacity : Z) (h h' : heap) (p : positive) (rb : ringbuf_t) :
  (forall n h1 q bytes h2,
     0 <= n -> malloc_fun n h1 = (Some (q, bytes), h2) ->
     Z.of_nat (length bytes) = n) ->
  0 <= capacity < SIZE_MAX ->
  ringbuf_new malloc_fun free_fun capacity h = (Some (p, rb), h') ->
  valid rb /\ ringbuf_capacity rb = capacity /\
  ringbuf_bytes_used rb = 0 /\ ringbuf_bytes_free rb = capacity /\
  ringbuf_is_empty rb = true /\ contents rb = [].
Proof.
  intros Hmalloc Hc Hnew.
  apply ringbuf_new_fresh in Hnew as (q & storage & h1 & Hq & ->).
  apply Hmalloc in Hq; [|apply size_t_range].
  rewrite size_t_small in Hq by lia.
  destruct (fresh_empty capacity storage Hc Hq) as (?&?&?&?&?&?&?).
  done.
Qed.

(** X6. A buffer from [ringbuf_new_static] over a storage of
    [capacity + 1] bytes, for a capacity below [SIZE_MAX], is a
    well-formed empty buffer with that capacity whose storage holds the
    caller's bytes unchanged. *)
Theorem new_static_is_empty {heap : Type}
    (malloc_fun : Z -> heap -> option (positive * list Z) * heap)
    (free_fun : positive -> heap -> heap)
    (capacity buf_size : Z) (storage : list Z) (h h' : heap)
    (p : positive) (rb : ringbuf_t) :
  0 <= capacity < SIZE_MAX ->
  Z.of_nat (length storage) = buf_size ->
  ringbuf_new_static malloc_fun free_fun capacity (Some storage) buf_size h
    = Ok (Some (p, rb), h') ->
  valid rb /\ ringbuf_capacity rb = capacity /\
  ringbuf_bytes_used rb = 0 /\ ringbuf_bytes_free rb = capacity /\
  ringbuf_is_empty rb = true /\ contents rb = [] /\ buf rb = storage.
Proof.
  intros Hc Hl Hnew.
  apply ringbuf_new_static_fresh in Hnew as (Hsz & ->).
  rewrite size_t_small in Hsz by lia.
  apply fresh_empty; [done | lia].
Qed.

(** X7. [ringbuf_reset] empties a well-formed buffer, whatever it held,
    without touching the storage: afterwards no byte is unread, the whole
    capacity is free, and the storage and its size are as before. *)
Theorem reset_empties (rb : ringbuf_t) :
  valid rb ->
  valid (ringbuf_reset rb) /\
  contents (ringbuf_reset rb) = [] /\
  ringbuf_bytes_used (ringbuf_reset rb) = 0 /\
  ringbuf_bytes_free (ringbuf_reset rb) = ringbuf_capacity rb /\
  ringbuf_is_empty (ringbuf_reset rb) = true /\
  buf (ringbuf_reset rb) = buf rb /\ size (ringbuf_reset rb) = size rb.
Proof.
  intros Hv. pose proof (valid_reset rb Hv) as Hv'.
  assert (ringbuf_bytes_used (ringbuf_reset rb) = 0) as Hu
    by (rewrite bytes_used_valid by done; simpl; lia).
  split_and!; try done.
  - apply length_zero_iff_nil.
    pose proof (length_contents _ Hv'). lia.
  - rewrite capacity_valid, bytes_free_valid by done. simpl. lia.
  - unfold ringbuf_is_empty. apply Z.eqb_eq.
    rewrite capacity_valid, bytes_free_valid by done. simpl. lia.
Qed.

(** * Edge cases *)

Lemma bytes_used_size_t rb :
  size_t (0 + ringbuf_bytes_used rb) = ringbuf_bytes_used rb.
Proof.
  rewrite Z.add_0_l. unfold ringbuf_bytes_used, size_t.
  apply Z.mod_mod. lia.
Qed.

Lemma Ok_bind {A B} (a : A) (f : A -> outcome B) : Ok a ≫= f = f a.
Proof. reflexivity. Qed.

(** X8. Calls for zero bytes change nothing. On any buffer, well formed
    or not, [ringbuf_memcpy_into], [ringbuf_memcpy_from] and
    [ringbuf_copy] with [count = 0] succeed, return the current [head],
    [tail] and [head] of the destination, and leave the buffers and the
    destination as they are; so does [ringbuf_memset] with [len = 0],
    returning 0, when [size] is not negative. *)
Theorem zero_count_changes_nothing (rb d : ringbuf_t) (src dst : list Z)
    (c : Z) :
  0 <= size rb ->
  ringbuf_memcpy_into rb src 0 = Ok (head rb, rb) /\
  ringbuf_memset rb c 0 = Ok (0, rb) /\
  ringbuf_memcpy_from dst rb 0 = Ok (Some (tail rb), dst, rb) /\
  ringbuf_copy d rb 0 = Ok (Some (head d), d, rb).
Proof.
  intros Hs.
  assert (forall x, (0 >? size_t x) = false) as Hge.
  { intros x. pose proof (size_t_range x).
    destruct (Z.gtb_spec 0 (size_t x)); [lia | done]. }
  split_and!.
  - unfold ringbuf_memcpy_into, ringbuf_bytes_free.
    destruct (head rb >=? tail rb); by rewrite Hge.
  - unfold ringbuf_memset, ringbuf_buffer_size. rewrite MIN_spec.
    replace (Z.min 0 (size rb)) with 0 by lia.
    unfold ringbuf_bytes_free.
    destruct (head rb >=? tail rb); by rewrite Hge.
  - unfold ringbuf_memcpy_from. unfold ringbuf_bytes_used at 1.
    rewrite Hge, memcpy_from_loop_done, Ok_bind by done.
    by rewrite bytes_used_size_t, Z.eqb_refl.
  - unfold ringbuf_copy. unfold ringbuf_bytes_used at 1.
    rewrite Hge, copy_loop_done, Ok_bind by done.
    rewrite bytes_used_size_t, Z.eqb_refl.
    unfold ringbuf_bytes_free. destruct (head d >=? tail d); by rewrite Hge.
Qed.

(** * A buffer copied to itself *)

Lemma copy_self_loop_used fuel : forall rb count ncopied rb',
  valid rb ->
  copy_self_loop fuel rb count ncopied = Ok rb' ->
  valid rb' /\ ringbuf_bytes_used rb' = ringbuf_bytes_used rb.
Proof.
  induction fuel as [|fuel IH]; intros rb count ncopied rb' Hv H;
    simpl in H; destruct (ncopied =? count);
    try discriminate; try (injection H as <-; done).
  ok_inv H. ok_inv H. ok_inv H.
  unfold memcpy_within in Hstep. destruct (_ && _); [discriminate|].
  apply memcpy_Ok in Hstep as (-> & Hb%in_bounds_spec & Hb'%in_bounds_spec).
  apply Z.gtb_lt in Hassert, Hassert0.
  unfold ringbuf_end, ringbuf_buffer_size in *.
  set (n := MIN (size rb - head rb)
              (MIN (size rb - tail rb) (size_t (count - ncopied)))) in *.
  match type of H with copy_self_loop _ ?r _ _ = _ =>
    assert (valid r /\ ringbuf_bytes_used r = ringbuf_bytes_used rb)
      as [Hv1 Hu1] end.
  { assert (forall r, valid r -> head r = (if decide (head rb + n = size rb)
                                     then 0 else head rb + n) ->
              tail r = (if decide (tail rb + n = size rb)
                        then 0 else tail rb + n) ->
              size r = size rb ->
              ringbuf_bytes_used r = ringbuf_bytes_used rb) as Hused.
    { intros r Hr Hh Ht Hs. rewrite !bytes_used_valid by done.
      rewrite Hh, Ht, Hs. destruct Hv. repeat case_decide; lia. }
    destruct Hv.
    destruct (Z.eqb_spec (tail rb + n) (size rb)); simpl;
      destruct (Z.eqb_spec (head rb + n) (size rb));
      (split; [split; simpl; rewrite ?length_inserts; lia|]);
      apply Hused; simpl; try done;
      try (split; simpl; rewrite ?length_inserts; lia);
      repeat case_decide; lia. }
  apply IH in H as [? ->]; done.
Qed.

(** X10. [ringbuf_copy] from a buffer to itself moves nothing. Called
    with one and the same well-formed buffer as [dst] and [src], it
    returns only when [count] is 0 or exceeds the bytes used, and then the
    buffer is unchanged: for any other [count] the call ends in its own
    assertion on the bytes used, or in a [memcpy] over overlapping
    regions. *)
Theorem copy_self_moves_nothing (rb rb' : ringbuf_t) (count : Z)
    (r : option Z) :
  valid rb -> 0 <= count <= SIZE_MAX ->
  ringbuf_copy_self rb count = Ok (r, rb') ->
  rb' = rb /\ (count = 0 \/ count > ringbuf_bytes_used rb).
Proof.
  intros Hv Hc H. unfold ringbuf_copy_self in H.
  destruct (Z.gtb_spec count (ringbuf_bytes_used rb)) as [Hgt|Hle].
  { injection H as _ <-. split; [done | lia]. }
  ok_inv H. ok_inv H. ok_inv H.
  pose proof Hstep as Hloop.
  apply copy_self_loop_used in Hstep as [Hv1 Hu1]; [|done].
  apply Z.eqb_eq in Hassert. rewrite Hu1 in Hassert.
  pose proof (bytes_used_range rb Hv) as Hu. pose proof (valid_size _ Hv).
  assert (count = 0) as ->.
  { unfold size_t, SIZE_MAX in *.
    destruct (decide (count + ringbuf_bytes_used rb < 2 ^ 64)).
    - rewrite Z.mod_small in Hassert by lia. lia.
    - replace (count + ringbuf_bytes_used rb)
        with (count + ringbuf_bytes_used rb - 2 ^ 64 + 1 * 2 ^ 64)
        in Hassert by lia.
      rewrite Z.mod_add, Z.mod_small in Hassert by lia. lia. }
  simpl in Hloop. injection Hloop as <-.
  pose proof (bytes_free_range rb Hv).
  destruct (Z.gtb_spec 0 (ringbuf_bytes_free rb)); [lia|].
  simpl in Hstep0. injection Hstep0 as <-. injection H as _ <-.
  split; [done | by left].
Qed.

(** * Search and read together *)

Lemma findchr_eq_flat rb c offset :
  valid rb -> size rb <= PTRDIFF_MAX -> 0 <= offset <= SIZE_MAX ->
  ringbuf_findchr rb c offset = Ok (flat_findchr (contents rb) c offset, rb).
Proof.
  intros Hv Hp Hoff. pose proof (bytes_used_range rb Hv) as Hu.
  destruct (findchr_rec_first rb c (Z.to_nat (ringbuf_bytes_used rb)) offset)
    as (r & Hr & Hfirst); [done | done | done | lia |].
  unfold ringbuf_findchr. rewrite Hr. do 2 f_equal.
  eapply first_at_unique; [exact Hfirst|].
  apply flat_findchr_first. lia.
Qed.

(** X11. Reading up to a delimiter. When [ringbuf_findchr] from offset 0
    finds the byte [c] at offset [r] of a well-formed buffer (of at most
    [PTRDIFF_MAX] slots), [ringbuf_memcpy_from] of [r + 1] bytes succeeds,
    the byte it delivers at index [r] is [c] and no earlier byte is, and
    [r + 1] bytes fewer are left unread. *)
Theorem read_up_to_delimiter (rb : ringbuf_t) (dst : list Z) (c r : Z) :
  valid rb -> size rb <= PTRDIFF_MAX ->
  ringbuf_findchr rb c 0 = Ok (r, rb) ->
  r < ringbuf_bytes_used rb ->
  r + 1 <= Z.of_nat (length dst) ->
  exists t bytes rb',
    ringbuf_memcpy_from dst rb (r + 1) = Ok (Some t, bytes, rb') /\
    bytes !! Z.to_nat r = Some (uchar c) /\
    (forall j : nat, Z.of_nat j < r -> bytes !! j <> Some (uchar c)) /\
    ringbuf_bytes_used rb' = ringbuf_bytes_used rb - (r + 1).
Proof.
  intros Hv Hp Hfind Hr Hdst. pose proof (bytes_used_range rb Hv) as Hu.
  pose proof (length_contents rb Hv) as Hlc.
  destruct (findchr_rec_first rb c (Z.to_nat (ringbuf_bytes_used rb)) 0)
    as (r' & Hr' & Hr0 & Hhit & Hmiss);
    [done | done | unfold SIZE_MAX; lia | lia |].
  unfold ringbuf_findchr in Hfind. rewrite Hr' in Hfind.
  injection Hfind as ->.
  destruct Hhit as [_ Hhit]; [lia|].
  do 3 eexists. split; [apply memcpy_from_contents; done || lia|].
  split_and!.
  - rewrite lookup_app_l by (rewrite length_take; lia).
    rewrite lookup_take_lt by lia. done.
  - intros j Hj. rewrite lookup_app_l by (rewrite length_take; lia).
    rewrite lookup_take_lt by lia. apply Hmiss. lia.
  - apply bytes_used_set_tail_wrap; done || lia.
Qed.

(** X12. Filling at least [size] bytes floods the buffer. For a
    well-formed buffer and [len >= size], [ringbuf_memset] returns [size]
    and leaves the buffer full, its unread bytes being [capacity] copies
    of the fill byte: nothing of the former contents is left. *)
Theorem memset_floods (rb : ringbuf_t) (c len : Z) :
  valid rb -> size rb <= len <= SIZE_MAX ->
  exists rb',
    ringbuf_memset rb c len = Ok (size rb, rb') /\
    ringbuf_is_full rb' = true /\
    contents rb' = replicate (Z.to_nat (ringbuf_capacity rb)) (uchar c).
Proof.
  intros Hv Hlen. pose proof Hv as [].
  pose proof (memset_spec rb c len Hv ltac:(lia)) as Hm. cbv zeta in Hm.
  rewrite Z.min_r in Hm by lia.
  eexists. split; [exact Hm|].
  pose proof (bytes_free_range rb Hv) as Hf.
  pose proof (length_contents rb Hv) as Hlc.
  split.
  - apply is_full_written; done || lia.
  - rewrite contents_written by (rewrite ?length_replicate; done || lia).
    rewrite take_replicate, Nat.min_id.
    rewrite drop_app_ge
      by (rewrite bytes_used_valid, bytes_free_valid in * by done;
          repeat case_decide; lia).
    rewrite drop_replicate, capacity_valid by done. f_equal.
    rewrite bytes_used_valid, bytes_free_valid in * by done.
    repeat case_decide; lia.
Qed.

(** * The buffer as a bounded queue *)

Lemma contents_reset rb : valid rb -> contents (ringbuf_reset rb) = [].
Proof.
  intros Hv. pose proof (valid_reset rb Hv) as Hv'.
  apply length_zero_iff_nil. pose proof (length_contents _ Hv') as Hl.
  rewrite bytes_used_valid in Hl by done. simpl in Hl. lia.
Qed.

Lemma keep_last_drop rb (new : list Z) :
  valid rb ->
  keep_last (ringbuf_capacity rb) (contents rb ++ new) =
    drop (Z.to_nat (Z.max 0 (Z.of_nat (length new) - ringbuf_bytes_free rb)))
      (contents rb ++ new).
Proof.
  intros Hv. unfold keep_last. f_equal.
  pose proof (length_contents rb Hv) as Hlc. rewrite length_app.
  rewrite capacity_valid by done.
  rewrite bytes_used_valid, bytes_free_valid in * by done.
  destruct Hv. repeat case_decide; lia.
Qed.

(** One call on the buffer is the same call on the queue of its unread
    bytes. *)
Lemma run_op_queue o rb :
  valid rb -> size rb <= PTRDIFF_MAX -> op_ok o ->
  exists rb',
    run_op o rb = Ok ((queue_op (ringbuf_capacity rb) o (contents rb)).1, rb') /\
    valid rb' /\ size rb' = size rb /\
    contents rb' = (queue_op (ringbuf_capacity rb) o (contents rb)).2.
Proof.
  intros Hv Hp Hok. pose proof Hv as [].
  pose proof (length_contents rb Hv) as Hlc.
  pose proof (bytes_used_range rb Hv) as Hu.
  destruct o as [data | c len | count | c offset |]; simpl in *.
  - destruct (memcpy_into_any rb data (Z.of_nat (length data)))
      as (rb' & Hrun & Hv' & Hsz & _ & Hcont & _); [done | lia | lia |].
    exists rb'. rewrite Hrun. split_and!; try done.
    rewrite Hcont, keep_last_drop by done.
    by rewrite Nat2Z.id, firstn_all.
  - pose proof (memset_spec rb c len Hv Hok) as Hm. cbv zeta in Hm.
    rewrite capacity_valid by done.
    replace (size rb - 1 + 1) with (size rb) by lia.
    set (count := Z.min len (size rb)) in *.
    exists (written rb (replicate (Z.to_nat count) (uchar c)) count).
    rewrite Hm. split_and!; try done.
    + apply valid_written; [done | lia].
    + rewrite contents_written
        by (rewrite ?length_replicate; done || lia).
      rewrite take_replicate, Nat.min_id.
      rewrite <- capacity_valid, keep_last_drop by done.
      rewrite length_replicate. do 3 f_equal. lia.
  - case_decide as Hcount.
    + rewrite memcpy_from_contents
        by (rewrite ?length_replicate; done || lia).
      eexists. simpl. split; [|split_and!].
      * rewrite drop_replicate.
        replace (Z.to_nat count - Z.to_nat count)%nat with 0%nat by lia.
        simpl. by rewrite app_nil_r.
      * apply valid_set_tail_wrap; done || lia.
      * done.
      * apply contents_set_tail_wrap; done || lia.
    + unfold ringbuf_memcpy_from.
      destruct (Z.gtb_spec count (ringbuf_bytes_used rb)); [|lia].
      exists rb. by simpl.
  - rewrite findchr_eq_flat by done. exists rb. by simpl.
  - exists (ringbuf_reset rb). split_and!; try done.
    + by apply valid_reset.
    + by apply contents_reset.
Qed.

(** X13. The buffer is a bounded queue that drops its oldest bytes. Any
    sequence of writes, fills, reads, searches and resets with [size_t]
    arguments, run on a well-formed buffer (of at most [PTRDIFF_MAX]
    slots), succeeds; what each call returns, and the unread bytes at the
    end, are those of the same calls on a plain queue of at most
    [capacity] bytes started with the unread bytes of the buffer: a write
    or fill appends and then drops the oldest bytes beyond the capacity, a
    read of more bytes than are held fails and changes nothing, a read of
    [count] bytes held takes the [count] oldest. *)
Theorem buffer_is_bounded_queue (os : list op) (rb : ringbuf_t) :
  valid rb -> size rb <= PTRDIFF_MAX -> Forall op_ok os ->
  exists rb',
    run_ops os rb =
      Ok ((queue_ops (ringbuf_capacity rb) os (contents rb)).1, rb') /\
    valid rb' /\
    contents rb' = (queue_ops (ringbuf_capacity rb) os (contents rb)).2.
Proof.
  intros Hv Hp Hok. revert rb Hv Hp.
  induction Hok as [|o os Ho Hos IH]; intros rb Hv Hp; simpl.
  - by exists rb.
  - destruct (run_op_queue o rb Hv Hp Ho) as (rb1 & Hrun & Hv1 & Hsz & Hc1).
    destruct (IH rb1 Hv1 ltac:(lia)) as (rb2 & Hrun2 & Hv2 & Hc2).
    assert (ringbuf_capacity rb1 = ringbuf_capacity rb) as Hcap
      by (rewrite !capacity_valid by done; lia).
    rewrite Hcap, Hc1 in Hrun2, Hc2.
    exists rb2. rewrite Hrun. simpl. rewrite Hrun2. simpl. done.
Qed.

(** * The further properties at concrete buffers *)

Lemma read_consumes_oldest_witness :
  valid rb_wrapped /\
  exists src',
    ringbuf_memcpy_from [0; 0; 0] rb_wrapped 2 =
      Ok (Some (tail src'),
          take 2 (contents rb_wrapped) ++ drop 2 [0; 0; 0], src') /\
    tail src' = (tail rb_wrapped + 2) mod size rb_wrapped /\
    buf src' = buf rb_wrapped /\ head src' = head rb_wrapped /\
    size src' = size rb_wrapped /\ valid src' /\
    contents src' = drop 2 (contents rb_wrapped) /\
    ringbuf_bytes_used src' = ringbuf_bytes_used rb_wrapped - 2.
Proof.
  split; [solve_valid|].
  apply (read_consumes_oldest [0; 0; 0] rb_wrapped 2).
  - solve_valid.
  - vm_compute. split; discriminate.
  - vm_compute. discriminate.
Defined.

Lemma write_keeps_most_recent_witness :
  valid rb_AB /\
  exists rb',
    ringbuf_memcpy_into rb_AB [1; 2; 3; 4; 5; 6; 7] 7 = Ok (head rb', rb') /\
    valid rb' /\ size rb' = size rb_AB /\
    head rb' = (head rb_AB + 7) mod size rb_AB /\
    contents rb' =
      drop (Z.to_nat (Z.max 0 (7 - ringbuf_bytes_free rb_AB)))
        (contents rb_AB ++ take (Z.to_nat 7) [1; 2; 3; 4; 5; 6; 7]) /\
    ringbuf_bytes_used rb' =
      Z.min (ringbuf_capacity rb_AB) (ringbuf_bytes_used rb_AB + 7) /\
    (7 >= ringbuf_bytes_free rb_AB -> ringbuf_is_full rb' = true).
Proof.
  split; [solve_valid|].
  apply (write_keeps_most_recent rb_AB [1; 2; 3; 4; 5; 6; 7] 7).
  - solve_valid.
  - unfold SIZE_MAX. lia.
  - vm_compute. discriminate.
Defined.

Lemma copy_is_read_then_write_witness :
  valid rb_empty1 /\ valid rb_XYZW /\
  exists t bytes src' h dst',
    ringbuf_memcpy_from [0; 0; 0; 0] rb_XYZW 4 = Ok (Some t, bytes, src') /\
    ringbuf_memcpy_into rb_empty1 bytes 4 = Ok (h, dst') /\
    ringbuf_copy rb_empty1 rb_XYZW 4 = Ok (Some h, dst', src').
Proof.
  split; [solve_valid|]. split; [solve_valid|].
  apply (copy_is_read_then_write rb_empty1 rb_XYZW [0; 0; 0; 0] 4).
  - solve_valid.
  - solve_valid.
  - vm_compute. split; discriminate.
  - reflexivity.
Defined.

Lemma copy_moves_oldest_witness :
  valid rb_empty1 /\ valid rb_XYZW /\
  exists dst' src',
    ringbuf_copy rb_empty1 rb_XYZW 4 = Ok (Some (head dst'), dst', src') /\
    valid dst' /\ valid src' /\
    contents dst' =
      drop (Z.to_nat (Z.max 0 (4 - ringbuf_bytes_free rb_empty1)))
        (contents rb_empty1 ++ take (Z.to_nat 4) (contents rb_XYZW)) /\
    (4 >= ringbuf_bytes_free rb_empty1 -> ringbuf_is_full dst' = true) /\
    contents src' = drop (Z.to_nat 4) (contents rb_XYZW) /\
    ringbuf_bytes_used src' = ringbuf_bytes_used rb_XYZW - 4 /\
    buf src' = buf rb_XYZW /\ head src' = head rb_XYZW.
Proof.
  split; [solve_valid|]. split; [solve_valid|].
  apply (copy_moves_oldest rb_empty1 rb_XYZW 4).
  - solve_valid.
  - solve_valid.
  - vm_compute. split; discriminate.
Defined.

Lemma new_is_empty_witness :
  ringbuf_new zero_malloc zero_free 4 0%nat
    = (Some (1%positive, fresh 4 (replicate 5 0)), 2%nat) /\
  valid (fresh 4 (replicate 5 0)) /\
  ringbuf_capacity (fresh 4 (replicate 5 0)) = 4 /\
  ringbuf_bytes_used (fresh 4 (replicate 5 0)) = 0 /\
  ringbuf_bytes_free (fresh 4 (replicate 5 0)) = 4 /\
  ringbuf_is_empty (fresh 4 (replicate 5 0)) = true /\
  contents (fresh 4 (replicate 5 0)) = [].
Proof.
  split; [reflexivity|].
  apply (new_is_empty zero_malloc zero_free 4 0%nat 2%nat 1%positive
           (fresh 4 (replicate 5 0))).
  - intros n h1 q bytes h2 Hn H. unfold zero_malloc in H.
    injection H as _ <- _. rewrite length_replicate. lia.
  - unfold SIZE_MAX. lia.
  - reflexivity.
Defined.

Lemma new_static_is_empty_witness :
  ringbuf_new_static zero_malloc zero_free 4 (Some [7; 7; 7; 7; 7]) 5 0%nat
    = Ok (Some (1%positive, fresh 4 [7; 7; 7; 7; 7]), 1%nat) /\
  valid (fresh 4 [7; 7; 7; 7; 7]) /\
  ringbuf_capacity (fresh 4 [7; 7; 7; 7; 7]) = 4 /\
  ringbuf_bytes_used (fresh 4 [7; 7; 7; 7; 7]) = 0 /\
  ringbuf_bytes_free (fresh 4 [7; 7; 7; 7; 7]) = 4 /\
  ringbuf_is_empty (fresh 4 [7; 7; 7; 7; 7]) = true /\
  contents (fresh 4 [7; 7; 7; 7; 7]) = [] /\
  buf (fresh 4 [7; 7; 7; 7; 7]) = [7; 7; 7; 7; 7].
Proof.
  split; [reflexivity|].
  apply (new_static_is_empty zero_malloc zero_free 4 5 [7; 7; 7; 7; 7]
           0%nat 1%nat 1%positive (fresh 4 [7; 7; 7; 7; 7])).
  - unfold SIZE_MAX. lia.
  - reflexivity.
  - reflexivity.
Defined.

Lemma reset_empties_witness :
  valid rb_wrapped /\
  valid (ringbuf_reset rb_wrapped) /\
  contents (ringbuf_reset rb_wrapped) = [] /\
  ringbuf_bytes_used (ringbuf_reset rb_wrapped) = 0 /\
  ringbuf_bytes_free (ringbuf_reset rb_wrapped) = ringbuf_capacity rb_wrapped /\
  ringbuf_is_empty (ringbuf_reset rb_wrapped) = true /\
  buf (ringbuf_reset rb_wrapped) = buf rb_wrapped /\
  size (ringbuf_reset rb_wrapped) = size rb_wrapped.
Proof.
  split; [solve_valid|]. apply (reset_empties rb_wrapped). solve_valid.
Defined.

Lemma zero_count_changes_nothing_witness :
  ringbuf_memcpy_into rb_AB [9] 0 = Ok (head rb_AB, rb_AB) /\
  ringbuf_memset rb_AB 70 0 = Ok (0, rb_AB) /\
  ringbuf_memcpy_from [9] rb_AB 0 = Ok (Some (tail rb_AB), [9], rb_AB) /\
  ringbuf_copy rb_empty1 rb_AB 0 = Ok (Some (head rb_empty1), rb_empty1, rb_AB).
Proof.
  apply (zero_count_changes_nothing rb_AB rb_empty1 [9] [9] 70).
  cbn. lia.
Defined.

Lemma copy_self_moves_nothing_witness :
  ringbuf_copy_self rb_AB 0 = Ok (Some 2, rb_AB) /\
  rb_AB = rb_AB /\ (0 = 0 \/ 0 > ringbuf_bytes_used rb_AB).
Proof.
  split; [reflexivity|].
  apply (copy_self_moves_nothing rb_AB rb_AB 0 (Some 2)).
  - solve_valid.
  - unfold SIZE_MAX. lia.
  - reflexivity.
Defined.

Lemma read_up_to_delimiter_witness :
  ringbuf_findchr rb_wrapped 3 0 = Ok (2, rb_wrapped) /\
  exists t bytes rb',
    ringbuf_memcpy_from [0; 0; 0] rb_wrapped (2 + 1)
      = Ok (Some t, bytes, rb') /\
    bytes !! Z.to_nat 2 = Some (uchar 3) /\
    (forall j : nat, Z.of_nat j < 2 -> bytes !! j <> Some (uchar 3)) /\
    ringbuf_bytes_used rb' = ringbuf_bytes_used rb_wrapped - (2 + 1).
Proof.
  split; [reflexivity|].
  apply (read_up_to_delimiter rb_wrapped [0; 0; 0] 3 2).
  - solve_valid.
  - cbn. unfold PTRDIFF_MAX. lia.
  - reflexivity.
  - vm_compute. reflexivity.
  - vm_compute. discriminate.
Defined.

Lemma memset_floods_witness :
  valid rb_AB /\
  exists rb',
    ringbuf_memset rb_AB 70 9 = Ok (size rb_AB, rb') /\
    ringbuf_is_full rb' = true /\
    contents rb' = replicate (Z.to_nat (ringbuf_capacity rb_AB)) (uchar 70).
Proof.
  split; [solve_valid|]. apply (memset_floods rb_AB 70 9).
  - solve_valid.
  - cbn. unfold SIZE_MAX. lia.
Defined.

Lemma buffer_is_bounded_queue_witness :
  queue_ops 4 demo_calls [] =
    ([Wrote; Got (Some [67; 68]); Found 1; Filled 2; Got None;
      Got (Some [69; 70; 33; 33]); WasReset; Wrote], [1]) /\
  exists rb',
    run_ops demo_calls rb_empty3 =
      Ok ((queue_ops (ringbuf_capacity rb_empty3) demo_calls
             (contents rb_empty3)).1, rb') /\
    valid rb' /\
    contents rb' =
      (queue_ops (ringbuf_capacity rb_empty3) demo_calls
         (contents rb_empty3)).2.
Proof.
  split; [reflexivity|].
  apply (buffer_is_bounded_queue demo_calls rb_empty3).
  - solve_valid.
  - cbn. unfold PTRDIFF_MAX. lia.
  - unfold demo_calls. repeat constructor; cbn; unfold SIZE_MAX; lia.
Defined.

(** * The largest capacity *)

(** C8. Cursor validity fails at [capacity = SIZE_MAX]. There
    [capacity + 1] wraps around to 0: [ringbuf_new_static], whose
    assertion [capacity + 1 == buf_size] passes with [buf_size = 0], and
    [ringbuf_new], when the allocator serves a request for 0 bytes, both
    return a non-null buffer of [size] 0. Its [head] and [tail] are not
    within [0, size), which is empty; it reports a capacity of [SIZE_MAX]
    bytes, all free; and [ringbuf_nextp] at [head] and a write of one byte
    end in the assertions that the cursor lies before the end of the
    storage. *)
Theorem size_max_breaks_cursor_validity :
  ringbuf_new_static zero_malloc zero_free SIZE_MAX (Some []) 0 0%nat
    = Ok (Some (1%positive, fresh SIZE_MAX []), 1%nat) /\
  ringbuf_new zero_malloc zero_free SIZE_MAX 0%nat
    = (Some (1%positive, fresh SIZE_MAX []), 2%nat) /\
  size (fresh SIZE_MAX []) = 0 /\
  head (fresh SIZE_MAX []) = 0 /\ tail (fresh SIZE_MAX []) = 0 /\
  ~ (0 <= head (fresh SIZE_MAX []) < size (fresh SIZE_MAX [])) /\
  ~ (0 <= tail (fresh SIZE_MAX []) < size (fresh SIZE_MAX [])) /\
  ringbuf_capacity (fresh SIZE_MAX []) = SIZE_MAX /\
  ringbuf_bytes_free (fresh SIZE_MAX []) = SIZE_MAX /\
  ringbuf_nextp (fresh SIZE_MAX []) (head (fresh SIZE_MAX [])) = AssertFail /\
  ringbuf_memcpy_into (fresh SIZE_MAX []) [65] 1 = AssertFail.
Proof.
  assert (fresh SIZE_MAX [] = mk_ringbuf [] 0 0 0) as -> by reflexivity.
  split_and!; try reflexivity; simpl; lia.
Qed.
